(** * Waymo training-set downloader: a shallow embedding of
      [data/download_training.py] and the properties of its specification.

    Layout of the development:
    - [PyStr]: the Python [str] and [int] operations the script calls;
    - [PyPath]: the part of [pathlib.PurePosixPath] the script uses;
    - [Eff]: a state-and-exception monad over the operating-system model,
      code that acts one event at a time, and the thread pool, whose
      threads take turns as a schedule of the surroundings says;
    - [Downloader]: the functions of the script, one definition each;
    - [Threads] and [PoolRuns]: what holds of the pool under every
      schedule;
    - the theorems, one module per component of the specification.

    Strings are Rocq [string]s whose characters are read as code points
    below 256.  Python integers are [Z]. *)

From Stdlib Require Import ZArith String Ascii List DecimalString Lia Bool.
From stdpp Require Import gmap strings list.

Open Scope string_scope.

(* ===================================================================== *)
(** ** Python string operations                                           *)
(* ===================================================================== *)

Module PyStr.

(** The double quote, written by its code. *)
Definition dquote : string := String "034"%char "".
(** The line feed. *)
Definition nl : string := String "010"%char "".
(** U+2713 and U+2717 in UTF-8, as the script's progress marks. *)
Definition check_mark : string :=
  String "226"%char (String "156"%char (String "147"%char "")).
Definition cross_mark : string :=
  String "226"%char (String "156"%char (String "151"%char "")).

(** [str.isspace] on one code point below 256: TAB..CR, FS..US, SPACE,
    NEL and NBSP. *)
Definition isspace (c : ascii) : bool :=
  let n := nat_of_ascii c in
  (((9 <=? n) && (n <=? 13)) || ((28 <=? n) && (n <=? 32))
   || (n =? 133) || (n =? 160))%nat.

Definition isdigit (c : ascii) : bool :=
  let n := nat_of_ascii c in ((48 <=? n) && (n <=? 57))%nat.

Definition digit_val (c : ascii) : Z := Z.of_nat (nat_of_ascii c) - 48.

(** [s.lstrip()], [s.rstrip()], [s.strip()]. *)
Fixpoint lstrip (s : string) : string :=
  match s with
  | "" => ""
  | String c s' => if isspace c then lstrip s' else s
  end.

Fixpoint rstrip (s : string) : string :=
  match s with
  | "" => ""
  | String c s' =>
      match rstrip s' with
      | "" => if isspace c then "" else String c ""
      | r => String c r
      end
  end.

Definition strip (s : string) : string := rstrip (lstrip s).

(** [s.startswith(p)] and [s.endswith(p)]. *)
Definition startswith (s p : string) : bool := String.prefix p s.

Definition endswith (s p : string) : bool :=
  (String.length p <=? String.length s)%nat
  && String.eqb (substring (String.length s - String.length p)
                           (String.length p) s) p.

(** [s.replace(old, new)]: every occurrence of [old], scanning from the
    left without overlap.  [skip] counts the characters of a matched
    occurrence still to be dropped. *)
Fixpoint replace_from (old new : string) (skip : nat) (s : string) : string :=
  match s with
  | "" => ""
  | String c s' =>
      match skip with
      | S k => replace_from old new k s'
      | O =>
          if String.prefix old s
          then new +:+ replace_from old new (String.length old - 1) s'
          else String c (replace_from old new 0 s')
      end
  end.

(** With an empty [old] Python inserts [new] before every character and
    at the end. *)
Fixpoint intersperse_after (new s : string) : string :=
  match s with
  | "" => ""
  | String c s' => String c (new +:+ intersperse_after new s')
  end.

Definition replace (s old new : string) : string :=
  match old with
  | "" => new +:+ intersperse_after new s
  | _ => replace_from old new 0 s
  end.

(** [s.split(sep)] for a non-empty [sep] (the script passes [","]).
    [cur] is the field being read. *)
Fixpoint split_from (sep : string) (skip : nat) (cur s : string) : list string :=
  match s with
  | "" => [cur]
  | String c s' =>
      match skip with
      | S k => split_from sep k cur s'
      | O =>
          if String.prefix sep s
          then cur :: split_from sep (String.length sep - 1) "" s'
          else split_from sep 0 (cur +:+ String c "") s'
      end
  end.

Definition split (s sep : string) : list string := split_from sep 0 "" s.

(** [s.count("/")]-style counting of one character. *)
Fixpoint count_char (c : ascii) (s : string) : nat :=
  match s with
  | "" => 0%nat
  | String d s' => ((if Ascii.eqb c d then 1 else 0) + count_char c s')%nat
  end.

(** [sep.join(l)]. *)
Fixpoint join (sep : string) (l : list string) : string :=
  match l with
  | [] => ""
  | [x] => x
  | x :: l' => x +:+ sep +:+ join sep l'
  end.

(** [s * n]. *)
Fixpoint repeat_str (s : string) (n : nat) : string :=
  match n with
  | O => ""
  | S k => s +:+ repeat_str s k
  end.

(** [str(n)] for an integer. *)
Definition str_of_Z (n : Z) : string := NilZero.string_of_int (Z.to_int n).

(** The digits of an integer literal: decimal digits, single underscores
    allowed between two digits. *)
Fixpoint parse_digits (acc : Z) (after_digit : bool) (s : string) : option Z :=
  match s with
  | "" => if after_digit then Some acc else None
  | String c s' =>
      if isdigit c then parse_digits (10 * acc + digit_val c) true s'
      else if Ascii.eqb c "_"%char && after_digit then parse_digits acc false s'
      else None
  end.

(** [int(s)]: surrounding whitespace is ignored, one sign may precede the
    digits.  [None] stands for [ValueError]. *)
Definition int (s : string) : option Z :=
  match strip s with
  | String "+" r => parse_digits 0 false r
  | String "-" r => Z.opp <$> parse_digits 0 false r
  | t => parse_digits 0 false t
  end.

(** [f.readlines()] of a text file opened with universal newlines:
    [\r\n] and [\r] read as [\n], every line keeps its [\n]. *)
Fixpoint universal_newlines (s : string) : string :=
  match s with
  | "" => ""
  | String c s' =>
      if Ascii.eqb c "013"%char then
        match s' with
        | String d s'' =>
            if Ascii.eqb d "010"%char then universal_newlines s'
            else String "010"%char (universal_newlines s')
        | "" => nl
        end
      else String c (universal_newlines s')
  end.

Fixpoint lines_from (cur s : string) : list string :=
  match s with
  | "" => match cur with "" => [] | _ => [cur] end
  | String c s' =>
      if Ascii.eqb c "010"%char then (cur +:+ nl) :: lines_from "" s'
      else lines_from (cur +:+ String c "") s'
  end.

Definition readlines (content : string) : list string :=
  lines_from "" (universal_newlines content).

(** [repr(s)]: single quotes unless [s] has one and no double quote;
    the quote and the backslash are escaped, TAB, LF and CR by letter,
    any other unprintable code point as [\xNN]. *)
Definition hex_digit (n : nat) : ascii :=
  nth n (list_ascii_of_string "0123456789abcdef") "0"%char.

Definition isprintable (c : ascii) : bool :=
  let n := nat_of_ascii c in
  (((32 <=? n) && (n <=? 126)) || ((161 <=? n) && negb (n =? 173)))%nat.

Definition repr_char (q c : ascii) : string :=
  if Ascii.eqb c q || Ascii.eqb c "\"%char then String "\" (String c "")
  else if Ascii.eqb c "009"%char then "\t"
  else if Ascii.eqb c "010"%char then "\n"
  else if Ascii.eqb c "013"%char then "\r"
  else if isprintable c then String c ""
  else let n := nat_of_ascii c in
       String "\" (String "x" (String (hex_digit (n / 16))
                                      (String (hex_digit (n mod 16)) ""))).

Fixpoint repr_body (q : ascii) (s : string) : string :=
  match s with
  | "" => ""
  | String c s' => repr_char q c +:+ repr_body q s'
  end.

Definition repr (s : string) : string :=
  let q := if negb (count_char "'" s =? 0)%nat && (count_char "034" s =? 0)%nat
           then "034"%char else "'"%char in
  String q (repr_body q s +:+ String q "").

(** [os.path.basename]: what follows the last slash. *)
Definition basename (s : string) : string := List.last (split s "/") "".

End PyStr.

(* ===================================================================== *)
(** ** Paths as [pathlib.PurePosixPath] holds them                        *)
(* ===================================================================== *)

Module PyPath.
Import PyStr.

(** A parsed path: the root (empty, one slash or two) and the names. *)
Record Path := mkPath { root : string; parts : list string }.

#[global] Instance Path_eq_dec : EqDecision Path.
Proof. solve_decision. Defined.

#[global] Instance Path_countable : Countable Path.
Proof.
  refine (inj_countable' (fun p => (root p, parts p))
                         (fun t => mkPath t.1 t.2) _).
  intros []; reflexivity.
Defined.

(** [posixpath.splitroot]: a path starting with exactly two slashes keeps
    both, any other number of leading slashes is one root. *)
Definition splitroot (s : string) : string * string :=
  match s with
  | String "/" t =>
      match t with
      | String "/" u =>
          match u with
          | String "/" _ => ("/", t)
          | _ => ("//", u)
          end
      | _ => ("/", t)
      end
  | _ => ("", s)
  end.

Definition keep_part (x : string) : bool :=
  negb (String.eqb x "") && negb (String.eqb x ".").

(** [Path(s)]. *)
Definition parse (s : string) : Path :=
  let '(r, rel) := splitroot s in
  mkPath r (List.filter keep_part (split rel "/")).

(** [str(p)]. *)
Definition to_str (p : Path) : string :=
  match root p, parts p with
  | "", [] => "."
  | r, ps => r +:+ join "/" ps
  end.

(** [p / key]: a rooted [key] replaces [p], any other is appended. *)
Definition div (p : Path) (key : string) : Path :=
  let k := parse key in
  match root k with
  | "" => mkPath (root p) (parts p ++ parts k)
  | _ => k
  end.

Definition name (p : Path) : string := List.last (parts p) "".

(** The directories [p.mkdir(parents=True, exist_ok=True)] makes sure of:
    [p] and each of its ancestors below the root or the working
    directory. *)
Definition self_and_parents (p : Path) : list Path :=
  List.map (fun k => mkPath (root p) (take k (parts p)))
           (seq 1 (List.length (parts p))).

End PyPath.

(* ===================================================================== *)
(** ** Effects: the world, exceptions, and the monad                      *)
(* ===================================================================== *)

Module Eff.
Import PyStr PyPath.

(** What a run does to its surroundings, oldest first: a line printed, a
    directory ensured, a shell command run together with its exit
    status. *)
Inductive event :=
| Print (line : string)
| Mkdir (p : Path)
| Run (cmd : string) (returncode : Z).

(** The mutable world: the history and the directories known to exist
    (the working directory and the root are not tracked). *)
Record World := mkWorld { trace : list event; dirs : gset Path }.

(** The surroundings the script only observes.  [files] gives the text of
    each regular file; [shell] gives exit status and standard error of a
    command line, which may depend on everything done before; [walk] is
    [os.walk]; [schedule] is the order in which the threads of the pool
    get to act, one choice per action (see [pool_step]). *)
Record OS := mkOS {
  files : string -> option string;
  shell : list event -> string -> Z * string;
  walk : list event -> string -> list (string * list string * list string);
  schedule : list nat
}.

(** The exceptions that occur. *)
Inductive exn :=
| Exception (msg : string)
| CalledProcessError (cmd : string) (returncode : Z) (stderr : string)
| IndexError
| ValueError (literal : string)
| FileNotFoundError (path : string)
| IsADirectoryError (path : string)
| FileExistsError (path : string)
| NotADirectoryError (path : string)
| SystemExit (code : Z).

(** [str(e)], as the interpreter words it. *)
Definition exn_str (e : exn) : string :=
  match e with
  | Exception msg => msg
  | CalledProcessError cmd rc _ =>
      "Command " +:+ repr cmd +:+ " returned non-zero exit status "
      +:+ str_of_Z rc +:+ "."
  | IndexError => "list index out of range"
  | ValueError lit => "invalid literal for int() with base 10: " +:+ repr lit
  | FileNotFoundError path =>
      "[Errno 2] No such file or directory: " +:+ repr path
  | IsADirectoryError path => "[Errno 21] Is a directory: " +:+ repr path
  | FileExistsError path => "[Errno 17] File exists: " +:+ repr path
  | NotADirectoryError path => "[Errno 20] Not a directory: " +:+ repr path
  | SystemExit code => str_of_Z code
  end.

(** [isinstance(e, Exception)]: all but [SystemExit]. *)
Definition is_Exception (e : exn) : bool :=
  match e with SystemExit _ => false | _ => true end.

Inductive res (A : Type) :=
| Ok (a : A)
| Raise (e : exn).
Arguments Ok {A} a.
Arguments Raise {A} e.

Definition is_ok {A} (r : res A) : bool :=
  match r with Ok _ => true | Raise _ => false end.

(** The status the interpreter exits with. *)
Definition exit_status {A} (r : res A) : Z :=
  match r with
  | Ok _ => 0
  | Raise (SystemExit c) => c
  | Raise _ => 1
  end.

Definition M (A : Type) : Type := World -> res A * World.

Definition ret {A} (a : A) : M A := fun w => (Ok a, w).
Definition raise {A} (e : exn) : M A := fun w => (Raise e, w).
Definition bind {A B} (m : M A) (k : A -> M B) : M B :=
  fun w => match m w with
           | (Ok a, w') => k a w'
           | (Raise e, w') => (Raise e, w')
           end.
Definition lift {A} (r : res A) : M A := fun w => (r, w).

(** [try: body except: handler], the handler seeing every exception. *)
Definition try_except {A} (body : M A) (handler : exn -> M A) : M A :=
  fun w => match body w with
           | (Ok a, w') => (Ok a, w')
           | (Raise e, w') => handler e w'
           end.

Definition emit (e : event) : M unit :=
  fun w => (Ok tt, mkWorld (trace w ++ [e]) (dirs w)).

Definition print (line : string) : M unit := emit (Print line).

Definition get_trace : M (list event) := fun w => (Ok (trace w), w).

(** [for x in l: body x]. *)
Fixpoint for_each {A} (l : list A) (body : A -> M unit) : M unit :=
  match l with
  | [] => ret tt
  | x :: l' => bind (body x) (fun _ => for_each l' body)
  end.

(** [[f x for x in l]]. *)
Fixpoint map_m {A B} (f : A -> M B) (l : list A) : M (list B) :=
  match l with
  | [] => ret []
  | x :: l' => bind (f x) (fun y => bind (map_m f l') (fun ys => ret (y :: ys)))
  end.

(** [l[i]] with Python's negative indices. *)
Definition getitem {A} (l : list A) (i : Z) : res A :=
  let n := Z.of_nat (List.length l) in
  let j := if (i <? 0)%Z then (n + i)%Z else i in
  if ((0 <=? j) && (j <? n))%Z then
    match nth_error l (Z.to_nat j) with
    | Some x => Ok x
    | None => Raise IndexError
    end
  else Raise IndexError.

(** [enumerate(l, start)]. *)
Fixpoint enumerate {A} (start : Z) (l : list A) : list (Z * A) :=
  match l with
  | [] => []
  | x :: l' => (start, x) :: enumerate (start + 1) l'
  end.

(** [zip(a, b)]. *)
Fixpoint zip {A B} (a : list A) (b : list B) : list (A * B) :=
  match a, b with
  | x :: a', y :: b' => (x, y) :: zip a' b'
  | _, _ => []
  end.

(** The world after one more event; ensuring a directory makes it and
    its parents known. *)
Definition apply_event (e : event) (w : World) : World :=
  mkWorld (trace w ++ [e])
          (match e with
           | Mkdir p => dirs w ∪ list_to_set (self_and_parents p)
           | _ => dirs w
           end).

Section WithOS.
Variable os : OS.

(** A regular file at a path. *)
Definition is_file (q : Path) : bool :=
  bool_decide (is_Some (files os (to_str q))).

(** What stops [p.mkdir(parents=True, exist_ok=True)]: a regular file
    among the parents of [p], or at [p] itself. *)
Definition mkdir_error (p : Path) : option exn :=
  if existsb is_file (removelast (self_and_parents p))
  then Some (NotADirectoryError (to_str p))
  else if is_file p then Some (FileExistsError (to_str p))
  else None.

(** [p.mkdir(parents=True, exist_ok=True)]: nothing is made when a
    regular file is in the way. *)
Definition mkdir (p : Path) : M unit :=
  fun w => match mkdir_error p with
           | Some e => (Raise e, w)
           | None => (Ok tt, apply_event (Mkdir p) w)
           end.

(** [os.path.exists(s)]: a regular file or a known directory. *)
Definition path_exists (s : string) : M bool :=
  fun w => (Ok (bool_decide (is_Some (files os s))
                || bool_decide (parse s ∈ dirs w)), w).

(** [open(s, "r")] followed by [readlines()]. *)
Definition open_readlines (s : string) : M (list string) :=
  fun w => match files os s with
           | Some text => (Ok (readlines text), w)
           | None =>
               if bool_decide (parse s ∈ dirs w)
               then (Raise (IsADirectoryError s), w)
               else (Raise (FileNotFoundError s), w)
           end.

(** [subprocess.run(cmd, shell=True, check=True, capture_output=True,
    text=True)]: the completed process, or [CalledProcessError] on a
    non-zero status. *)
Definition subprocess_run (cmd : string) : M (Z * string) :=
  fun w =>
    let '(rc, err) := shell os (trace w) cmd in
    let w' := mkWorld (trace w ++ [Run cmd rc]) (dirs w) in
    if (rc =? 0)%Z then (Ok (rc, err), w')
    else (Raise (CalledProcessError cmd rc err), w').

(** [sys.exit(code)]. *)
Definition sys_exit {A} (code : Z) : M A := raise (SystemExit code).

(** [future.result()] of a finished future. *)
Definition future_result {A} (f : res A) : M A := lift f.

(** *** Code run by a thread of the pool

    A thread acts one event at a time: a line printed, a directory
    ensured, a command completed.  [Step ev next] is code whose next
    action adds the event [ev w] in the world [w] it meets and goes on
    as [next w]; [Done r] is code that has ended. *)
Inductive Prog (A : Type) : Type :=
| Done (r : res A)
| Step (ev : World -> event) (next : World -> Prog A).
Arguments Done {A} r.
Arguments Step {A} ev next.

(** The code run alone, to its end. *)
Fixpoint run_prog {A} (p : Prog A) (w : World) : res A * World :=
  match p with
  | Done r => (r, w)
  | Step ev next => run_prog (next w) (apply_event (ev w) w)
  end.

Fixpoint bind_steps {A B} (p : Prog A) (k : A -> Prog B) : Prog B :=
  match p with
  | Done (Ok a) => k a
  | Done (Raise e) => Done (Raise e)
  | Step ev next => Step ev (fun w => bind_steps (next w) k)
  end.

Fixpoint try_steps {A} (p : Prog A) (handler : exn -> Prog A) : Prog A :=
  match p with
  | Done (Ok a) => Done (Ok a)
  | Done (Raise e) => handler e
  | Step ev next => Step ev (fun w => try_steps (next w) handler)
  end.

Fixpoint for_each_steps {A} (l : list A) (body : A -> Prog unit) : Prog unit :=
  match l with
  | [] => Done (Ok tt)
  | x :: l' => bind_steps (body x) (fun _ => for_each_steps l' body)
  end.

Definition print_steps (line : string) : Prog unit :=
  Step (fun _ => Print line) (fun _ => Done (Ok tt)).

Definition mkdir_steps (p : Path) : Prog unit :=
  match mkdir_error p with
  | Some e => Done (Raise e)
  | None => Step (fun _ => Mkdir p) (fun _ => Done (Ok tt))
  end.

Definition subprocess_steps (cmd : string) : Prog (Z * string) :=
  Step (fun w => Run cmd (shell os (trace w) cmd).1)
       (fun w => let '(rc, err) := shell os (trace w) cmd in
                 if (rc =? 0)%Z then Done (Ok (rc, err))
                 else Done (Raise (CalledProcessError cmd rc err))).

(** *** The thread pool

    [ThreadPoolExecutor(max_workers)] with every task submitted, and the
    main thread asking each future for its result, in submission order.
    Tasks are taken up in submission order as workers are free.  The
    futures are indexed by submission; [pool_next] is the future the
    main thread waits for, [pool_raised] what its loop raised. *)
Record Pool := mkPool {
  pool_world : World;
  pool_pending : list (nat * Prog unit);
  pool_running : list (nat * Prog unit);
  pool_futures : list (option (res unit));
  pool_next : nat;
  pool_raised : option exn
}.

(** Free workers take up pending tasks; a task with nothing to do is
    finished at once. *)
Fixpoint take_up (max_workers : nat) (running : list (nat * Prog unit))
    (futures : list (option (res unit))) (pending : list (nat * Prog unit))
    : list (nat * Prog unit) * list (option (res unit))
      * list (nat * Prog unit) :=
  match pending with
  | [] => (running, futures, [])
  | (i, p) :: rest =>
      if (length running <? max_workers)%nat then
        match p with
        | Done r => take_up max_workers running (<[i := Some r]> futures) rest
        | Step _ _ => take_up max_workers (running ++ [(i, p)]) futures rest
        end
      else (running, futures, pending)
  end.

Definition settle (max_workers : nat) (s : Pool) : Pool :=
  let '(running, futures, pending) :=
    take_up max_workers (pool_running s) (pool_futures s) (pool_pending s) in
  mkPool (pool_world s) pending running futures (pool_next s) (pool_raised s).

(** The worker at position [j] acts once; when its task ends, its future
    is set and the worker is free. *)
Definition step_worker (max_workers j : nat) (s : Pool) : Pool :=
  match pool_running s !! j with
  | Some (i, Step ev next) =>
      let w := pool_world s in
      let w' := apply_event (ev w) w in
      match next w with
      | Done r =>
          settle max_workers
            (mkPool w' (pool_pending s) (delete j (pool_running s))
                    (<[i := Some r]> (pool_futures s))
                    (pool_next s) (pool_raised s))
      | p' =>
          mkPool w' (pool_pending s) (<[j := (i, p')]> (pool_running s))
                 (pool_futures s) (pool_next s) (pool_raised s)
      end
  | _ => s
  end.

(** The result the main thread can take now: that of the future it waits
    for, once set, unless its loop has raised. *)
Definition main_ready (s : Pool) : option (res unit) :=
  match pool_raised s with
  | Some _ => None
  | None => mjoin (pool_futures s !! pool_next s)
  end.

(** The main thread runs one turn of its loop on the result [r]. *)
Definition step_main (body : Z * res unit -> M unit) (r : res unit)
    (s : Pool) : Pool :=
  match body (Z.of_nat (S (pool_next s)), r) (pool_world s) with
  | (Ok _, w') =>
      mkPool w' (pool_pending s) (pool_running s) (pool_futures s)
             (S (pool_next s)) (pool_raised s)
  | (Raise e, w') =>
      mkPool w' (pool_pending s) (pool_running s) (pool_futures s)
             (pool_next s) (Some e)
  end.

(** One action, the one [choice] selects among those possible: the
    workers in order, then the main thread when it can go on. *)
Definition pool_step (max_workers : nat) (body : Z * res unit -> M unit)
    (choice : nat) (s : Pool) : Pool :=
  let workers := length (pool_running s) in
  match main_ready s with
  | Some r =>
      let j := (choice mod (S workers))%nat in
      if (j <? workers)%nat then step_worker max_workers j s
      else step_main body r s
  | None =>
      match workers with
      | O => s
      | S _ => step_worker max_workers (choice mod workers)%nat s
      end
  end.

(** Past the end of the schedule the threads act in order: the tasks
    taken up end one after another, then the pending ones, then the main
    thread goes through the remaining futures. *)
Fixpoint finish_tasks (ts : list (nat * Prog unit)) (w : World)
    (futures : list (option (res unit)))
    : World * list (option (res unit)) :=
  match ts with
  | [] => (w, futures)
  | (i, p) :: rest =>
      let '(r, w') := run_prog p w in
      finish_tasks rest w' (<[i := Some r]> futures)
  end.

Fixpoint finish_main (body : Z * res unit -> M unit)
    (rest : list (option (res unit))) (next : nat) (w : World)
    : nat * option exn * World :=
  match rest with
  | Some r :: rest' =>
      match body (Z.of_nat (S next), r) w with
      | (Ok _, w') => finish_main body rest' (S next) w'
      | (Raise e, w') => (next, Some e, w')
      end
  | _ => (next, None, w)
  end.

Definition drain (body : Z * res unit -> M unit) (s : Pool) : Pool :=
  let '(w1, futures) :=
    finish_tasks (pool_running s ++ pool_pending s) (pool_world s)
                 (pool_futures s) in
  match pool_raised s with
  | Some e => mkPool w1 [] [] futures (pool_next s) (Some e)
  | None =>
      let '(next, raised, w2) :=
        finish_main body (drop (pool_next s) futures) (pool_next s) w1 in
      mkPool w2 [] [] futures next raised
  end.

Fixpoint pool_run (max_workers : nat) (body : Z * res unit -> M unit)
    (choices : list nat) (s : Pool) : Pool :=
  match choices with
  | [] => drain body s
  | c :: rest => pool_run max_workers body rest (pool_step max_workers body c s)
  end.

(** [with ThreadPoolExecutor(max_workers) as executor:] around the
    submission of [tasks] and the loop [body] over their futures.  The
    block ends when every task has ended; it raises what the loop
    raised. *)
Definition with_thread_pool (max_workers : nat) (tasks : list (Prog unit))
    (body : Z * res unit -> M unit) : M unit :=
  fun w =>
    let s0 := settle max_workers
                (mkPool w (List.combine (seq 0 (length tasks)) tasks) []
                        (List.repeat None (length tasks)) 0 None) in
    let s := pool_run max_workers body (schedule os) s0 in
    (match pool_raised s with
     | Some e => Raise e
     | None => Ok tt
     end, pool_world s).

End WithOS.

Arguments Done {A} r.
Arguments Step {A} ev next.

Declare Scope eff_scope.
Delimit Scope eff_scope with eff.
Notation "x <- m ;; k" := (bind m (fun x => k))
  (at level 20, m at level 99, k at level 200, only parsing) : eff_scope.
Notation "m ;; k" := (bind m (fun _ => k))
  (at level 100, k at level 200, right associativity, only parsing) : eff_scope.

End Eff.

(* ===================================================================== *)
(** ** The script                                                         *)
(* ===================================================================== *)

Module Downloader.
Import PyStr PyPath Eff.
Local Open Scope eff_scope.

Section Script.
Variable os : OS.

(** [run_command(cmd, description)]. *)
Definition run_command (cmd description : string) : M (Z * string) :=
  print ("Running: " +:+ description) ;;
  print ("Command: " +:+ cmd) ;;
  try_except
    (result <- subprocess_run os cmd ;;
     print (check_mark +:+ " " +:+ description +:+ " completed successfully") ;;
     ret result)
    (fun e =>
       match e with
       | CalledProcessError _ returncode stderr =>
           print (cross_mark +:+ " Error in " +:+ description +:+ ":") ;;
           print ("Return code: " +:+ str_of_Z returncode) ;;
           print ("Error output: " +:+ stderr) ;;
           raise (Exception ("Command failed: " +:+ stderr))
       | _ => raise e
       end).

Definition GSUTIL_PATH : string :=
  "/home/charles/.local/google-cloud-sdk/bin/gsutil".

(** The command line both download functions build:
    [f'{GSUTIL_PATH} -m cp "{url}" {dir}/']. *)
Definition copy_command (url : string) (dir : Path) : string :=
  GSUTIL_PATH +:+ " -m cp " +:+ dquote +:+ url +:+ dquote +:+ " "
  +:+ to_str dir +:+ "/".

Definition tfrecord_url (filename : string) : string :=
  "gs://waymo_open_dataset_v_1_4_1/individual_files/training/"
  +:+ filename +:+ ".tfrecord".

(** [download_tfrecord_file(filename, target_dir, scene_id)]. *)
Definition download_tfrecord_file (filename : string) (target_dir : Path)
    (scene_id : Z) : M unit :=
  run_command (copy_command (tfrecord_url filename) target_dir)
              ("Downloading tfrecord file: " +:+ filename +:+ ".tfrecord") ;;
  ret tt.

(** The table [data_types]: data type and folder name. *)
Definition data_types : list (string * string) :=
  [ ("lidar", "lidar");
    ("lidar_box", "lidar_box");
    ("lidar_calibration", "lidar_calibration");
    ("lidar_camera_projection", "lidar_camera_projection");
    ("lidar_camera_synced_box", "lidar_camera_synced_box");
    ("lidar_pose", "lidar_pose");
    ("vehicle_pose", "vehicle_pose") ].

Definition parquet_url (data_type scene_id : string) : string :=
  "gs://waymo_open_dataset_v_2_0_0/training/" +:+ data_type +:+ "/"
  +:+ (scene_id +:+ ".parquet").

(** One turn of the loop of [download_parsed_data]. *)
Definition download_data_type (scene_id : string) (target_dir : Path)
    (entry : string * string) : M unit :=
  let '(data_type, folder_name) := entry in
  let data_dir := div target_dir folder_name in
  mkdir os data_dir ;;
  run_command (copy_command (parquet_url data_type scene_id) data_dir)
              ("Downloading " +:+ data_type +:+ " data to " +:+ folder_name
               +:+ "/") ;;
  ret tt.

(** [download_parsed_data(scene_id, target_dir)]; here [scene_id] is the
    segment id, a string. *)
Definition download_parsed_data (scene_id : string) (target_dir : Path)
    : M unit :=
  for_each data_types (download_data_type scene_id target_dir).

(** Lines 85 to 89 of [download_scene_data]: the segment id of a file
    name, or the scene id with a warning. *)
Definition derive_segment_id (scene_id : Z) (filename : string) : M string :=
  if startswith filename "segment-"
     && endswith filename "_with_camera_labels"
  then ret (replace (replace filename "segment-" "") "_with_camera_labels" "")
  else
    print ("Warning: Unexpected filename format: " +:+ filename) ;;
    ret (str_of_Z scene_id).

(** [download_scene_data(scene_id, target_dir, filename)]. *)
Definition download_scene_data (scene_id : Z) (target_dir : Path)
    (filename : string) : M unit :=
  print (nl +:+ "=== Processing scene " +:+ str_of_Z scene_id +:+ " ===") ;;
  download_tfrecord_file filename target_dir scene_id ;;
  segment_id <- derive_segment_id scene_id filename ;;
  download_parsed_data segment_id target_dir ;;
  print (check_mark +:+ " Scene " +:+ str_of_Z scene_id
         +:+ " completed successfully!").

(** The comprehension [[total_list[i].strip() for i in scene_ids]]. *)
Definition select_file_names (total_list : list string) (scene_ids : list Z)
    : M (list string) :=
  map_m (fun i => line <- lift (getitem total_list i) ;; ret (strip line))
        scene_ids.

(** The body of the loop over the futures. *)
Definition report_future (total : nat) (entry : Z * res unit) : M unit :=
  let '(counter, future) := entry in
  try_except
    (future_result future ;;
     print ("[" +:+ str_of_Z counter +:+ "/" +:+ str_of_Z (Z.of_nat total)
            +:+ "] Scene completed successfully!"))
    (fun e =>
       if is_Exception e
       then print ("[" +:+ str_of_Z counter +:+ "/"
                   +:+ str_of_Z (Z.of_nat total)
                   +:+ "] Scene failed. Error: " +:+ exn_str e)
       else raise e).

(** The functions a task of the pool runs, as code that acts one event
    at a time; each is shown to do, run alone, what the function above
    of the same name does ([SceneFetch.download_scene_data_steps_run]). *)
Definition run_command_steps (cmd description : string) : Prog (Z * string) :=
  bind_steps (print_steps ("Running: " +:+ description)) (fun _ =>
  bind_steps (print_steps ("Command: " +:+ cmd)) (fun _ =>
  try_steps
    (bind_steps (subprocess_steps os cmd) (fun result =>
     bind_steps (print_steps (check_mark +:+ " " +:+ description
                              +:+ " completed successfully")) (fun _ =>
     Done (Ok result))))
    (fun e =>
       match e with
       | CalledProcessError _ returncode stderr =>
           bind_steps (print_steps (cross_mark +:+ " Error in "
                                    +:+ description +:+ ":")) (fun _ =>
           bind_steps (print_steps ("Return code: "
                                    +:+ str_of_Z returncode)) (fun _ =>
           bind_steps (print_steps ("Error output: " +:+ stderr)) (fun _ =>
           Done (Raise (Exception ("Command failed: " +:+ stderr))))))
       | _ => Done (Raise e)
       end))).

Definition download_tfrecord_file_steps (filename : string)
    (target_dir : Path) (scene_id : Z) : Prog unit :=
  bind_steps
    (run_command_steps (copy_command (tfrecord_url filename) target_dir)
       ("Downloading tfrecord file: " +:+ filename +:+ ".tfrecord"))
    (fun _ => Done (Ok tt)).

Definition download_data_type_steps (scene_id : string) (target_dir : Path)
    (entry : string * string) : Prog unit :=
  let '(data_type, folder_name) := entry in
  let data_dir := div target_dir folder_name in
  bind_steps (mkdir_steps os data_dir) (fun _ =>
  bind_steps
    (run_command_steps (copy_command (parquet_url data_type scene_id) data_dir)
       ("Downloading " +:+ data_type +:+ " data to " +:+ folder_name +:+ "/"))
    (fun _ => Done (Ok tt))).

Definition download_parsed_data_steps (scene_id : string) (target_dir : Path)
    : Prog unit :=
  for_each_steps data_types (download_data_type_steps scene_id target_dir).

Definition derive_segment_id_steps (scene_id : Z) (filename : string)
    : Prog string :=
  if startswith filename "segment-"
     && endswith filename "_with_camera_labels"
  then Done (Ok (replace (replace filename "segment-" "")
                         "_with_camera_labels" ""))
  else
    bind_steps (print_steps ("Warning: Unexpected filename format: "
                             +:+ filename))
               (fun _ => Done (Ok (str_of_Z scene_id))).

Definition download_scene_data_steps (scene_id : Z) (target_dir : Path)
    (filename : string) : Prog unit :=
  bind_steps (print_steps (nl +:+ "=== Processing scene "
                           +:+ str_of_Z scene_id +:+ " ===")) (fun _ =>
  bind_steps (download_tfrecord_file_steps filename target_dir scene_id)
             (fun _ =>
  bind_steps (derive_segment_id_steps scene_id filename) (fun segment_id =>
  bind_steps (download_parsed_data_steps segment_id target_dir) (fun _ =>
  print_steps (check_mark +:+ " Scene " +:+ str_of_Z scene_id
               +:+ " completed successfully!"))))).

(** The block under [with ThreadPoolExecutor(max_workers=5)]: one task
    per scene, then the loop over the futures. *)
Definition run_pool (scene_ids : list Z) (target_path : Path)
    (file_names : list string) : M unit :=
  with_thread_pool os 5
    (map (fun '(scene_id, filename) =>
            download_scene_data_steps scene_id target_path filename)
         (zip scene_ids file_names))
    (report_future (List.length scene_ids)).

(** The listing loop over [os.walk(target_path)]. *)
Definition list_entry (target_path : Path)
    (entry : string * list string * list string) : M unit :=
  let '(root, _, files) := entry in
  let level := count_char "/" (replace root (to_str target_path) "") in
  let indent := repeat_str (repeat_str " " 2) level in
  print (indent +:+ basename root +:+ "/") ;;
  let subindent := repeat_str (repeat_str " " 2) (level + 1) in
  for_each files (fun file => print (subindent +:+ file)).

(** Lines 114 to 123 of [download_training_data]: the index file is
    checked, read, and indexed by the scene ids. *)
Definition resolve_file_names (scene_ids : list Z)
    (waymo_train_list_path : string) : M (list string) :=
  found <- path_exists os waymo_train_list_path ;;
  (if negb found
   then print ("Error: waymo_train_list.txt not found at "
               +:+ waymo_train_list_path) ;;
        sys_exit 1
   else ret tt) ;;
  total_list <- open_readlines os waymo_train_list_path ;;
  select_file_names total_list scene_ids.

(** [download_training_data(scene_ids, target_dir, waymo_train_list_path)]. *)
Definition download_training_data (scene_ids : list Z) (target_dir : string)
    (waymo_train_list_path : string) : M unit :=
  let target_path := parse target_dir in
  mkdir os target_path ;;
  file_names <- resolve_file_names scene_ids waymo_train_list_path ;;
  print ("Downloading training data for "
         +:+ str_of_Z (Z.of_nat (List.length scene_ids)) +:+ " scenes...") ;;
  print ("Target directory: " +:+ to_str target_path) ;;
  run_pool scene_ids target_path file_names ;;
  print (nl +:+ check_mark +:+ " All training data download completed!") ;;
  print ("Training data location: " +:+ to_str target_path) ;;
  print (nl +:+ "Downloaded files:") ;;
  history <- get_trace ;;
  for_each (walk os history (to_str target_path)) (list_entry target_path).

(** The parsed command line. *)
Record Args := mkArgs {
  arg_target_dir : string;
  arg_scene_ids : list Z;
  arg_split_file : option string;
  arg_waymo_train_list : string
}.

(** The comprehension [[int(line.strip().split(",")[0]) for line in
    split_lines]]. *)
Definition split_scene_id (line : string) : M Z :=
  field <- lift (getitem (split (strip line) ",") 0) ;;
  match int field with
  | Some n => ret n
  | None => raise (ValueError field)
  end.

(** The split-file branch of [main]. *)
Definition read_split_file (split_file : string) : M (list Z) :=
  found <- path_exists os split_file ;;
  (if negb found
   then print ("Error: Split file not found at " +:+ split_file) ;;
        sys_exit 1
   else ret tt) ;;
  lines <- open_readlines os split_file ;;
  let split_lines := drop 1 lines in
  map_m split_scene_id split_lines.

(** [main()], after [argparse]. *)
Definition main (args : Args) : M unit :=
  print "Note: `gcloud auth login` is required before running this script" ;;
  print "Downloading Waymo training dataset from Google Cloud Storage..." ;;
  scene_ids <- match arg_split_file args with
               | Some split_file => read_split_file split_file
               | None => ret (arg_scene_ids args)
               end ;;
  download_training_data scene_ids (arg_target_dir args)
                         (arg_waymo_train_list args).

End Script.
End Downloader.

(* ===================================================================== *)
(** ** Reasoning about runs                                               *)
(* ===================================================================== *)

Module Runs.
Import PyStr PyPath Eff.
Local Open Scope list_scope.

(** The world after more events. *)
Definition extend (w : World) (evs : list event) : World :=
  mkWorld (trace w ++ evs) (dirs w).

(** A world and surroundings for examples: no file, every command
    succeeds, nothing to list. *)
Definition quiet_os : OS :=
  mkOS (fun _ => None) (fun _ _ => (0%Z, "")) (fun _ _ => []) [].

Definition empty_world : World := mkWorld [] ∅.

Lemma extend_nil w : extend w [] = w.
Proof. destruct w; unfold extend; simpl. by rewrite app_nil_r. Qed.

Lemma extend_extend w a b : extend (extend w a) b = extend w (a ++ b).
Proof. unfold extend; simpl. by rewrite app_assoc. Qed.

Lemma trace_extend w evs : trace (extend w evs) = trace w ++ evs.
Proof. reflexivity. Qed.

Lemma dirs_extend w evs : dirs (extend w evs) = dirs w.
Proof. reflexivity. Qed.

Lemma bind_ok {A B} (m : M A) (k : A -> M B) w a w' :
  m w = (Ok a, w') -> bind m k w = k a w'.
Proof. intros H. unfold bind. by rewrite H. Qed.

Lemma bind_raise {A B} (m : M A) (k : A -> M B) w e w' :
  m w = (Raise e, w') -> bind m k w = (Raise e, w').
Proof. intros H. unfold bind. by rewrite H. Qed.

Lemma print_run line w : print line w = (Ok tt, extend w [Print line]).
Proof. reflexivity. Qed.

(** The commands run and the directories ensured, read off a history. *)
Definition commands (evs : list event) : list string :=
  omap (fun e => match e with Run cmd _ => Some cmd | _ => None end) evs.

Definition made_dirs (evs : list event) : list Path :=
  omap (fun e => match e with Mkdir p => Some p | _ => None end) evs.

Definition is_print (e : event) : bool :=
  match e with Print _ => true | _ => false end.

(** No command of the history failed. *)
Definition all_succeeded (evs : list event) : bool :=
  forallb (fun e => match e with Run _ rc => (rc =? 0)%Z | _ => true end) evs.

(** After a failed command the history only prints. *)
Definition halts_at_failure (evs : list event) : Prop :=
  forall pre cmd rc post,
    evs = pre ++ Run cmd rc :: post -> rc <> 0%Z ->
    forallb is_print post = true.

Lemma commands_app a b : commands (a ++ b) = commands a ++ commands b.
Proof. apply omap_app. Qed.

Lemma made_dirs_app a b : made_dirs (a ++ b) = made_dirs a ++ made_dirs b.
Proof. apply omap_app. Qed.

Lemma all_succeeded_app a b :
  all_succeeded (a ++ b) = all_succeeded a && all_succeeded b.
Proof. apply forallb_app. Qed.

Lemma all_succeeded_mkdir p evs :
  all_succeeded (Mkdir p :: evs) = all_succeeded evs.
Proof. reflexivity. Qed.

Lemma all_succeeded_print line evs :
  all_succeeded (Print line :: evs) = all_succeeded evs.
Proof. reflexivity. Qed.

Lemma commands_mkdir p evs : commands (Mkdir p :: evs) = commands evs.
Proof. reflexivity. Qed.

Lemma commands_print line evs : commands (Print line :: evs) = commands evs.
Proof. reflexivity. Qed.

Lemma made_dirs_mkdir p evs : made_dirs (Mkdir p :: evs) = p :: made_dirs evs.
Proof. reflexivity. Qed.

Lemma made_dirs_print line evs : made_dirs (Print line :: evs) = made_dirs evs.
Proof. reflexivity. Qed.

Lemma halts_nil : halts_at_failure [].
Proof. intros [|] ? ? ? H; discriminate H. Qed.

Lemma halts_app_ok a b :
  all_succeeded a = true -> halts_at_failure b -> halts_at_failure (a ++ b).
Proof.
  intros Ha Hb pre cmd rc post E Hrc.
  revert pre E. induction a as [|x a IH]; intros pre E; simpl in *.
  - eapply Hb; eauto.
  - apply andb_prop in Ha as [Hx Ha].
    destruct pre as [|y pre]; simpl in E; injection E as -> E.
    + simpl in Hx. apply Z.eqb_eq in Hx. contradiction.
    + eapply IH; eauto.
Qed.

Lemma halts_prints a :
  forallb is_print a = true -> halts_at_failure a.
Proof.
  intros Ha pre cmd rc post -> _.
  rewrite forallb_app in Ha. apply andb_prop in Ha as [_ Ha].
  simpl in Ha. discriminate Ha.
Qed.

Lemma halts_failed_last a cmd rc b :
  all_succeeded a = true -> forallb is_print b = true ->
  halts_at_failure (a ++ Run cmd rc :: b).
Proof.
  intros Ha Hb. apply halts_app_ok; [done|].
  intros pre c r post E Hr.
  destruct pre as [|y pre]; simpl in E; injection E as ? E; subst.
  - done.
  - rewrite forallb_app in Hb. apply andb_prop in Hb as [_ Hb].
    simpl in Hb. discriminate Hb.
Qed.

Lemma prints_no_effects evs :
  forallb is_print evs = true -> commands evs = [] /\ made_dirs evs = [].
Proof.
  induction evs as [|[line|p|cmd rc] evs IH]; simpl; intros H; try done.
  by apply IH.
Qed.

Lemma all_succeeded_failed pre cmd rc post :
  rc <> 0%Z -> all_succeeded (pre ++ Run cmd rc :: post) = false.
Proof.
  intros Hrc. rewrite all_succeeded_app. simpl.
  apply Z.eqb_neq in Hrc. rewrite Hrc. by rewrite andb_false_r.
Qed.

End Runs.

(* ===================================================================== *)
(** ** Code that acts one event at a time                                 *)
(* ===================================================================== *)

Module Threads.
Import PyStr PyPath Eff Runs.
Local Open Scope list_scope.

(** The histories a piece of code can leave and the result it then ends
    with, whatever the other threads do in between: each action is taken
    in some world. *)
Inductive emits {A} : Prog A -> list event -> res A -> Prop :=
| emits_done r : emits (Done r) [] r
| emits_step ev next w h r :
    emits (next w) h r -> emits (Step ev next) (ev w :: h) r.

(** The code [p] run alone does what [m] does. *)
Definition runs_as {A} (p : Prog A) (m : M A) : Prop :=
  forall w, run_prog p w = m w.

Lemma emits_done_inv {A} (r' : res A) h r :
  emits (Done r') h r -> h = [] /\ r = r'.
Proof. intros H. by inversion H. Qed.

Lemma emits_step_inv {A} ev (next : World -> Prog A) h r :
  emits (Step ev next) h r ->
  exists w h', h = ev w :: h' /\ emits (next w) h' r.
Proof. intros H. inversion H; subst. eauto. Qed.

Lemma emits_bind_inv {A B} (p : Prog A) (k : A -> Prog B) h r :
  emits (bind_steps p k) h r ->
  (exists e, emits p h (Raise e) /\ r = Raise e)
  \/ (exists a h1 h2, emits p h1 (Ok a) /\ emits (k a) h2 r /\ h = h1 ++ h2).
Proof.
  revert h. induction p as [[a|e]|ev next IH]; intros h H; cbn in H.
  - right. exists a, [], h. split; [constructor | by split].
  - apply emits_done_inv in H as [-> ->]. left. exists e. split; [constructor | done].
  - apply emits_step_inv in H as (w & h' & -> & H).
    destruct (IH w h' H) as [(e & He & ->) | (a & h1 & h2 & H1 & H2 & ->)].
    + left. exists e. split; [by constructor | done].
    + right. exists a, (ev w :: h1), h2. split; [by constructor | by split].
Qed.

Lemma emits_bind {A B} (p : Prog A) (k : A -> Prog B) a h1 h2 r :
  emits p h1 (Ok a) -> emits (k a) h2 r -> emits (bind_steps p k) (h1 ++ h2) r.
Proof.
  revert h1. induction p as [[a'|e]|ev next IH]; intros h1 H1 H2.
  - apply emits_done_inv in H1 as [-> [= ->]]. exact H2.
  - apply emits_done_inv in H1 as [_ [=]].
  - apply emits_step_inv in H1 as (w & h' & -> & H1). cbn.
    constructor. by apply IH.
Qed.

Lemma run_prog_bind {A B} (p : Prog A) (k : A -> Prog B) w :
  run_prog (bind_steps p k) w
  = match run_prog p w with
    | (Ok a, w') => run_prog (k a) w'
    | (Raise e, w') => (Raise e, w')
    end.
Proof.
  revert w. induction p as [[a|e]|ev next IH]; intros w; cbn; [done..|].
  apply IH.
Qed.

Lemma run_prog_try {A} (p : Prog A) (handler : exn -> Prog A) w :
  run_prog (try_steps p handler) w
  = match run_prog p w with
    | (Ok a, w') => (Ok a, w')
    | (Raise e, w') => run_prog (handler e) w'
    end.
Proof.
  revert w. induction p as [[a|e]|ev next IH]; intros w; cbn; [done..|].
  apply IH.
Qed.

Lemma runs_bind {A B} (p : Prog A) (k : A -> Prog B) m k' :
  runs_as p m -> (forall a, runs_as (k a) (k' a)) ->
  runs_as (bind_steps p k) (bind m k').
Proof.
  intros Hp Hk w. rewrite run_prog_bind. unfold bind. rewrite <- Hp.
  destruct (run_prog p w) as [[a|e] w']; [apply Hk | reflexivity].
Qed.

Lemma runs_try {A} (p : Prog A) (handler : exn -> Prog A) m handler' :
  runs_as p m -> (forall e, runs_as (handler e) (handler' e)) ->
  runs_as (try_steps p handler) (try_except m handler').
Proof.
  intros Hp Hh w. rewrite run_prog_try. unfold try_except. rewrite <- Hp.
  destruct (run_prog p w) as [[a|e] w']; [reflexivity | apply Hh].
Qed.

Lemma runs_for_each {A} (l : list A) (body : A -> Prog unit) body' :
  (forall x, runs_as (body x) (body' x)) ->
  runs_as (for_each_steps l body) (for_each l body').
Proof.
  intros Hb. induction l as [|x l IH]; [by intros w|].
  cbn [for_each_steps for_each]. apply runs_bind; [apply Hb | by intros _].
Qed.

Lemma runs_ret {A} (a : A) : runs_as (Done (Ok a)) (ret a).
Proof. by intros w. Qed.

Lemma runs_raise {A} e : runs_as (@Done A (Raise e)) (raise e).
Proof. by intros w. Qed.

Lemma runs_print line : runs_as (print_steps line) (print line).
Proof. by intros w. Qed.

Lemma runs_mkdir os p : runs_as (mkdir_steps os p) (mkdir os p).
Proof.
  intros w. unfold mkdir_steps, mkdir. by destruct (mkdir_error os p).
Qed.

Lemma runs_subprocess os cmd :
  runs_as (subprocess_steps os cmd) (subprocess_run os cmd).
Proof.
  intros w. unfold subprocess_steps, subprocess_run. cbn [run_prog].
  destruct (shell os (trace w) cmd) as [rc err]. cbn [fst].
  by destruct (rc =? 0)%Z.
Qed.

(** The world after the events of a history. *)
Definition apply_events (h : list event) (w : World) : World :=
  fold_left (fun w e => apply_event e w) h w.

Lemma trace_apply_events h w : trace (apply_events h w) = trace w ++ h.
Proof.
  revert w. induction h as [|e h IH]; intros w; cbn.
  - by rewrite app_nil_r.
  - unfold apply_events in IH. rewrite IH. cbn [apply_event trace].
    by rewrite <- app_assoc.
Qed.

(** Run alone, code leaves one of the histories it can leave. *)
Lemma run_prog_emits {A} (p : Prog A) w :
  exists h, emits p h (run_prog p w).1
            /\ (run_prog p w).2 = apply_events h w.
Proof.
  revert w. induction p as [r|ev next IH]; intros w; cbn [run_prog].
  - exists []. split; [constructor | reflexivity].
  - destruct (IH w (apply_event (ev w) w)) as (h & He & Hw).
    exists (ev w :: h). split; [by constructor | exact Hw].
Qed.

End Threads.

(* ===================================================================== *)
(** ** The single-scene fetcher                                           *)
(* ===================================================================== *)

Module SceneFetch.
Import PyStr PyPath Eff Downloader Runs Threads.
Local Open Scope list_scope.

(** What [run_command] adds to the history, given how the command ends. *)
Definition run_command_events (cmd description : string) (rc : Z)
    (err : string) : list event :=
  [ Print ("Running: " +:+ description); Print ("Command: " +:+ cmd);
    Run cmd rc ]
  ++ (if (rc =? 0)%Z
      then [ Print (check_mark +:+ " " +:+ description
                    +:+ " completed successfully") ]
      else [ Print (cross_mark +:+ " Error in " +:+ description +:+ ":");
             Print ("Return code: " +:+ str_of_Z rc);
             Print ("Error output: " +:+ err) ]).

(** The request for the primary file and the request for one category. *)
Definition primary_command (target_dir : Path) (filename : string) : string :=
  copy_command (tfrecord_url filename) target_dir.

Definition category_command (segment_id : string) (target_dir : Path)
    (entry : string * string) : string :=
  copy_command (parquet_url entry.1 segment_id) (div target_dir entry.2).

Definition category_dir (target_dir : Path) (entry : string * string) : Path :=
  div target_dir entry.2.

(** The secondary id [download_scene_data] passes on. *)
Definition secondary_id (scene_id : Z) (filename : string) : string :=
  if startswith filename "segment-"
     && endswith filename "_with_camera_labels"
  then replace (replace filename "segment-" "") "_with_camera_labels" ""
  else str_of_Z scene_id.

Definition scene_header (scene_id : Z) : event :=
  Print (nl +:+ "=== Processing scene " +:+ str_of_Z scene_id +:+ " ===").

Definition warning (filename : string) : event :=
  Print ("Warning: Unexpected filename format: " +:+ filename).

Section Facts.
Variable os : OS.

Lemma run_command_events_facts cmd description rc err :
  commands (run_command_events cmd description rc err) = [cmd]
  /\ made_dirs (run_command_events cmd description rc err) = []
  /\ all_succeeded (run_command_events cmd description rc err) = (rc =? 0)%Z
  /\ halts_at_failure (run_command_events cmd description rc err).
Proof.
  unfold run_command_events.
  destruct (rc =? 0)%Z eqn:E; simpl; rewrite ?E; repeat split; try done.
  - apply (halts_app_ok [_; _; _] [_]); simpl; rewrite ?E; try done.
    by apply halts_prints.
  - by apply (halts_failed_last [_; _] cmd rc [_; _; _]).
Qed.

(** [run_command] runs the command once and raises [Exception] exactly
    when its status is not zero. *)
Lemma run_command_run cmd description w :
  let h := trace w ++ [ Print ("Running: " +:+ description);
                        Print ("Command: " +:+ cmd) ] in
  let rc := (shell os h cmd).1 in
  let err := (shell os h cmd).2 in
  run_command os cmd description w =
    (if (rc =? 0)%Z then Ok (rc, err)
     else Raise (Exception ("Command failed: " +:+ err)),
     extend w (run_command_events cmd description rc err)).
Proof.
  intros h rc err. subst h rc err.
  unfold run_command, bind, print, emit, try_except, subprocess_run,
    run_command_events, extend, ret, raise; simpl.
  rewrite <- !app_assoc; simpl.
  destruct (shell os _ cmd) as [rc err]; simpl.
  destruct (rc =? 0)%Z; simpl; rewrite <- !app_assoc; reflexivity.
Qed.

(** One category: the directory is ensured, then the copy is requested;
    nothing happens when the directory cannot be ensured. *)
Lemma download_data_type_run segment_id target entry w :
  let d := category_dir target entry in
  let cmd := category_command segment_id target entry in
  let description :=
    "Downloading " +:+ entry.1 +:+ " data to " +:+ entry.2 +:+ "/" in
  let h := trace w ++ [ Mkdir d; Print ("Running: " +:+ description);
                        Print ("Command: " +:+ cmd) ] in
  let rc := (shell os h cmd).1 in
  let err := (shell os h cmd).2 in
  download_data_type os segment_id target entry w =
    match mkdir_error os d with
    | Some e => (Raise e, w)
    | None =>
        (if (rc =? 0)%Z then Ok tt
         else Raise (Exception ("Command failed: " +:+ err)),
         mkWorld (trace w ++ Mkdir d :: run_command_events cmd description rc err)
                 (dirs w ∪ list_to_set (self_and_parents d)))
    end.
Proof.
  destruct entry as [data_type folder_name]. intros d cmd description h rc err.
  subst d cmd description h rc err.
  unfold download_data_type, category_dir, category_command. cbn [fst snd].
  unfold bind at 1. unfold mkdir at 1.
  destruct (mkdir_error os (div target folder_name)); [reflexivity|].
  unfold bind. rewrite run_command_run. unfold apply_event. cbn [trace dirs].
  rewrite <- app_assoc. cbn [app].
  unfold extend, ret. cbn [trace dirs]. rewrite <- app_assoc. cbn [app].
  match goal with |- context [(?x =? 0)%Z] => destruct (x =? 0)%Z end;
    reflexivity.
Qed.

(** The errors a fetch can end with: a failed copy, or a regular file
    where a category directory is wanted. *)
Definition is_fetch_error (e : exn) : bool :=
  match e with
  | Exception _ | FileExistsError _ | NotADirectoryError _ => true
  | _ => false
  end.

Lemma mkdir_error_is_fetch_error d e :
  mkdir_error os d = Some e -> is_fetch_error e = true.
Proof.
  unfold mkdir_error. destruct (existsb _ _); [by intros [= <-]|].
  destruct (is_file os d); [by intros [= <-] | discriminate].
Qed.

(** How a fetch ends, against the requests and directories planned:
    nothing but printing follows a failed request; a fetch that ends
    well made requests that all succeeded, and conversely when no file
    is in the way of a planned directory; it fails with a fetch error
    only; the requests made and the directories ensured are the first
    planned, all of them on success. *)
Definition fetch_outcome (plan : list string) (plan_dirs : list Path)
    (r : res unit) (evs : list event) : Prop :=
  halts_at_failure evs
  /\ (is_ok r = true -> all_succeeded evs = true)
  /\ (Forall (fun d => mkdir_error os d = None) plan_dirs ->
      is_ok r = all_succeeded evs)
  /\ (r = Ok tt \/ exists e, r = Raise e /\ is_fetch_error e = true)
  /\ (exists k, commands evs = take k plan)
  /\ (exists j, made_dirs evs = take j plan_dirs)
  /\ (is_ok r = true -> commands evs = plan /\ made_dirs evs = plan_dirs).

Lemma fetch_outcome_nil : fetch_outcome [] [] (Ok tt) [].
Proof.
  repeat split; auto using halts_nil. all: by exists 0%nat.
Qed.

(** A category whose directory cannot be ensured ends the loop at once. *)
Lemma fetch_outcome_blocked cmd plan d plan_dirs e :
  mkdir_error os d = Some e ->
  fetch_outcome (cmd :: plan) (d :: plan_dirs) (Raise e) [].
Proof.
  intros Emk. split; [apply halts_nil|]. split; [discriminate|]. split.
  { intros Hclear. inversion Hclear as [|? ? Hd0 _]; subst. congruence. }
  split; [right; exists e; split;
          [reflexivity | by apply (mkdir_error_is_fetch_error d)]|].
  split; [by exists 0%nat|]. split; [by exists 0%nat|]. discriminate.
Qed.

(** A category whose copy fails ends the loop after its diagnostics. *)
Lemma fetch_outcome_failed cmd description rc err plan d plan_dirs :
  rc <> 0%Z ->
  fetch_outcome (cmd :: plan) (d :: plan_dirs)
    (Raise (Exception ("Command failed: " +:+ err)))
    (Mkdir d :: run_command_events cmd description rc err).
Proof.
  intros Hrc.
  destruct (run_command_events_facts cmd description rc err)
    as (Hc & Hd & Hs & Hh).
  apply Z.eqb_neq in Hrc. rewrite Hrc in Hs.
  split; [by apply (halts_app_ok [Mkdir d])|].
  split; [discriminate|].
  split; [intros _; by rewrite all_succeeded_mkdir, Hs|].
  split; [right; eauto|].
  rewrite commands_mkdir, made_dirs_mkdir, Hc, Hd.
  split; [by exists 1%nat|]. split; [by exists 1%nat|]. discriminate.
Qed.

(** A category whose copy succeeds is followed by the rest of the loop. *)
Lemma fetch_outcome_ok cmd description err plan d plan_dirs r evs :
  fetch_outcome plan plan_dirs r evs ->
  fetch_outcome (cmd :: plan) (d :: plan_dirs) r
    (Mkdir d :: run_command_events cmd description 0 err ++ evs).
Proof.
  intros (Hhalt & Hok & Hiff & Hres & [k Hk1] & [j Hk2] & Hk3).
  destruct (run_command_events_facts cmd description 0 err)
    as (Hc & Hd & Hs & Hh).
  split.
  { apply (halts_app_ok (Mkdir d :: run_command_events cmd description 0 err));
      [by rewrite all_succeeded_mkdir, Hs | done]. }
  split.
  { intros H. rewrite all_succeeded_mkdir, all_succeeded_app, Hs.
    by apply Hok. }
  split.
  { intros Hclear. inversion Hclear as [|? ? _ Hrest]; subst.
    rewrite all_succeeded_mkdir, all_succeeded_app, Hs. by apply Hiff. }
  split; [done|].
  rewrite commands_mkdir, made_dirs_mkdir, commands_app, made_dirs_app.
  rewrite Hc, Hd. cbn [app].
  split; [exists (S k); by rewrite Hk1|].
  split; [exists (S j); by rewrite Hk2|].
  intros H. destruct (Hk3 H) as [E1 E2]. by rewrite E1, E2.
Qed.

Lemma download_parsed_loop segment_id target l w :
  exists evs,
    trace (for_each l (download_data_type os segment_id target) w).2
    = trace w ++ evs
    /\ fetch_outcome (map (category_command segment_id target) l)
                     (map (category_dir target) l)
                     (for_each l (download_data_type os segment_id target) w).1
                     evs.
Proof.
  revert w. induction l as [|entry l IH]; intros w.
  - exists []. cbn. rewrite app_nil_r. split; [done | apply fetch_outcome_nil].
  - cbn [for_each]. unfold bind.
    pose proof (download_data_type_run segment_id target entry w) as Hstep.
    cbv zeta in Hstep. rewrite Hstep. clear Hstep.
    set (description := "Downloading " +:+ entry.1 +:+ " data to "
                        +:+ entry.2 +:+ "/").
    set (cmd := category_command segment_id target entry).
    set (d := category_dir target entry).
    set (rc := (shell os _ cmd).1). set (err := (shell os _ cmd).2).
    destruct (mkdir_error os d) as [e|] eqn:Emk.
    { exists []. cbn [fst snd map]. rewrite app_nil_r.
      split; [reflexivity | by apply fetch_outcome_blocked]. }
    destruct (rc =? 0)%Z eqn:Erc.
    + set (w1 := mkWorld _ _).
      destruct (IH w1) as (evs & Htr & Hout).
      exists (Mkdir d :: run_command_events cmd description rc err ++ evs).
      split.
      { rewrite Htr. subst w1. cbn [trace].
        rewrite <- app_assoc. reflexivity. }
      apply Z.eqb_eq in Erc. rewrite Erc. cbn [map].
      by apply fetch_outcome_ok.
    + exists (Mkdir d :: run_command_events cmd description rc err).
      cbn [fst snd trace map]. split; [reflexivity|].
      apply fetch_outcome_failed. by apply Z.eqb_neq.
Qed.

Definition matches_pattern (filename : string) : bool :=
  startswith filename "segment-" && endswith filename "_with_camera_labels".

(** Deriving the id never raises; it warns exactly when the name does not
    have the expected form. *)
Lemma derive_segment_id_run scene_id filename w :
  derive_segment_id scene_id filename w =
    (Ok (secondary_id scene_id filename),
     extend w (if matches_pattern filename then [] else [warning filename])).
Proof.
  unfold derive_segment_id, secondary_id, matches_pattern.
  destruct (startswith filename "segment-"
            && endswith filename "_with_camera_labels").
  - unfold ret. by rewrite extend_nil.
  - reflexivity.
Qed.

Definition scene_done (scene_id : Z) : event :=
  Print (check_mark +:+ " Scene " +:+ str_of_Z scene_id
         +:+ " completed successfully!").

Definition primary_description (filename : string) : string :=
  "Downloading tfrecord file: " +:+ filename +:+ ".tfrecord".

(** [download_scene_data] step by step: header, primary request, and only
    after its success the id, the categories and the closing line. *)
Lemma download_scene_data_run scene_id target filename w :
  let cmd := primary_command target filename in
  let description := primary_description filename in
  let h := trace w ++ [ scene_header scene_id;
                        Print ("Running: " +:+ description);
                        Print ("Command: " +:+ cmd) ] in
  let rc := (shell os h cmd).1 in
  let err := (shell os h cmd).2 in
  let w1 := extend w (scene_header scene_id
                      :: run_command_events cmd description rc err) in
  download_scene_data os scene_id target filename w =
    if (rc =? 0)%Z then
      let w2 := extend w1 (if matches_pattern filename then []
                           else [warning filename]) in
      let rw := download_parsed_data os (secondary_id scene_id filename)
                                     target w2 in
      match rw.1 with
      | Ok _ => (Ok tt, extend rw.2 [scene_done scene_id])
      | Raise e => (Raise e, rw.2)
      end
    else (Raise (Exception ("Command failed: " +:+ err)), w1).
Proof.
  intros cmd description h rc err w1. subst cmd description h rc err w1.
  unfold download_scene_data, download_tfrecord_file, primary_command,
    primary_description, scene_header, scene_done.
  unfold bind at 1. rewrite print_run.
  unfold bind at 1. unfold bind at 1. rewrite run_command_run.
  rewrite extend_extend. cbn [trace extend app].
  rewrite <- app_assoc. cbn [app].
  match goal with |- context [(?x =? 0)%Z] => destruct (x =? 0)%Z end;
    [|reflexivity].
  unfold ret at 1. unfold bind at 1. rewrite derive_segment_id_run.
  unfold bind at 1. cbv zeta.
  match goal with |- context [download_parsed_data ?a ?b ?c ?d] =>
    destruct (download_parsed_data a b c d) as [[[]|e] w3] end; reflexivity.
Qed.

(** The requests and directories of a whole scene. *)
Definition scene_plan (scene_id : Z) (target : Path) (filename : string)
    : list string :=
  primary_command target filename
  :: map (category_command (secondary_id scene_id filename) target) data_types.

Definition scene_dirs (target : Path) : list Path :=
  map (category_dir target) data_types.

(** The history and the result of a scene fetch, from the way its
    primary copy ended ([rc], [err]) and from the history [evs] and the
    result [r] of its category loop, which runs only after a primary copy
    that succeeded. *)
Definition scene_events (scene_id : Z) (target : Path) (filename : string)
    (rc : Z) (err : string) (r : res unit) (evs : list event) : list event :=
  scene_header scene_id
  :: run_command_events (primary_command target filename)
       (primary_description filename) rc err
  ++ (if (rc =? 0)%Z
      then (if matches_pattern filename then [] else [warning filename])
           ++ evs ++ (if is_ok r then [scene_done scene_id] else [])
      else []).

Definition scene_result (rc : Z) (err : string) (r : res unit) : res unit :=
  if (rc =? 0)%Z then r
  else Raise (Exception ("Command failed: " +:+ err)).

Lemma scene_outcome scene_id target filename rc err r evs :
  fetch_outcome
    (map (category_command (secondary_id scene_id filename) target) data_types)
    (scene_dirs target) r evs ->
  fetch_outcome (scene_plan scene_id target filename) (scene_dirs target)
    (scene_result rc err r)
    (scene_events scene_id target filename rc err r evs).
Proof.
  intros (Hhalt & Hok & Hiff & Hres & [k Hk1] & [j Hk2] & Hk3).
  unfold scene_events, scene_result.
  set (cmd := primary_command target filename).
  set (description := primary_description filename).
  destruct (run_command_events_facts cmd description rc err)
    as (Hc & Hd & Hs & Hh).
  destruct (rc =? 0)%Z eqn:Erc.
  - set (wn := if matches_pattern filename then [] else [warning filename]).
    assert (Hwn : commands wn = [] /\ made_dirs wn = []
                  /\ all_succeeded wn = true).
    { subst wn. by destruct (matches_pattern filename). }
    destruct Hwn as (Hwc & Hwd & Hws).
    rewrite app_assoc, app_comm_cons.
    set (pre := scene_header scene_id
                :: run_command_events cmd description rc err ++ wn).
    assert (Hpre : commands pre = [cmd] /\ made_dirs pre = []
                   /\ all_succeeded pre = true).
    { subst pre. unfold scene_header.
      rewrite commands_print, made_dirs_print, all_succeeded_print.
      rewrite commands_app, made_dirs_app, all_succeeded_app.
      by rewrite Hc, Hd, Hs, Hwc, Hwd, Hws. }
    destruct Hpre as (Hpc & Hpd & Hps).
    destruct r as [[]|e]; cbn [is_ok].
    + destruct (Hk3 eq_refl) as [E1 E2].
      pose proof (Hok eq_refl) as Hall.
      assert (Hfull : all_succeeded (pre ++ evs ++ [scene_done scene_id])
                      = true)
        by (by rewrite !all_succeeded_app, Hps, Hall).
      split.
      { apply halts_app_ok; [done|]. apply halts_app_ok; [done|].
        by apply halts_prints. }
      split; [done|]. split; [intros _; by rewrite Hfull|].
      split; [by left|].
      rewrite !commands_app, !made_dirs_app, Hpc, Hpd, E1, E2.
      unfold scene_plan, scene_dirs. cbn [app]. rewrite !app_nil_r.
      split; [exists 8%nat; reflexivity|].
      split; [exists 7%nat; reflexivity|]. done.
    + rewrite app_nil_r.
      split; [by apply halts_app_ok|].
      split; [discriminate|].
      split.
      { intros Hclear. rewrite all_succeeded_app, Hps. exact (Hiff Hclear). }
      split; [exact Hres|].
      rewrite !commands_app, !made_dirs_app, Hpc, Hpd, Hk1, Hk2.
      unfold scene_plan, scene_dirs. cbn [app].
      split; [by exists (S k)|]. split; [by exists j|]. discriminate.
  - rewrite app_nil_r. split.
    { apply (halts_app_ok [scene_header scene_id]); done. }
    split; [discriminate|].
    split.
    { intros _. unfold scene_header. by rewrite all_succeeded_print, Hs. }
    split; [right; eauto|].
    unfold scene_header.
    rewrite commands_print, made_dirs_print, Hc, Hd.
    unfold scene_plan.
    split; [by exists 1%nat|]. split; [by exists 0%nat|]. discriminate.
Qed.

Lemma download_scene_data_outcome scene_id target filename w :
  let cmd := primary_command target filename in
  let description := primary_description filename in
  let h := trace w ++ [ scene_header scene_id;
                        Print ("Running: " +:+ description);
                        Print ("Command: " +:+ cmd) ] in
  exists evs,
    trace (download_scene_data os scene_id target filename w).2
    = trace w ++ evs
    /\ fetch_outcome (scene_plan scene_id target filename) (scene_dirs target)
                     (download_scene_data os scene_id target filename w).1 evs
    /\ exists rest,
         evs = scene_header scene_id
               :: run_command_events cmd description (shell os h cmd).1
                                     (shell os h cmd).2 ++ rest.
Proof.
  cbv zeta.
  pose proof (download_scene_data_run scene_id target filename w) as Hrun.
  cbv zeta in Hrun. rewrite Hrun. clear Hrun.
  set (cmd := primary_command target filename).
  set (description := primary_description filename).
  set (rc := (shell os _ cmd).1). set (err := (shell os _ cmd).2).
  set (w2 := extend (extend w _) _).
  unfold download_parsed_data.
  destruct (download_parsed_loop (secondary_id scene_id filename) target
              data_types w2) as (evs & Htr & Hout).
  pose proof (scene_outcome scene_id target filename rc err _ _ Hout) as Hscene.
  exists (scene_events scene_id target filename rc err
            (for_each data_types
               (download_data_type os (secondary_id scene_id filename) target)
               w2).1 evs).
  unfold scene_events, scene_result in *. fold cmd description in Hscene |- *.
  destruct (rc =? 0)%Z eqn:Erc.
  - destruct (for_each data_types _ w2) as [[[]|e] w3] eqn:Eloop;
      cbn [fst snd is_ok] in *.
    + split; [|split; [exact Hscene | by eexists]].
      rewrite trace_extend, Htr. subst w2. rewrite extend_extend.
      cbn [trace extend]. by rewrite <- !app_assoc.
    + split; [|split; [exact Hscene | by eexists]].
      rewrite Htr. subst w2. rewrite extend_extend.
      cbn [trace extend]. by rewrite app_nil_r, <- !app_assoc.
  - cbn [fst snd]. split; [|split; [exact Hscene | by eexists]].
    by rewrite app_nil_r.
Qed.

(** *** The same functions as code of a thread *)

Lemma run_command_steps_run cmd description :
  runs_as (run_command_steps os cmd description)
          (run_command os cmd description).
Proof.
  unfold run_command_steps, run_command.
  apply runs_bind; [apply runs_print | intros _].
  apply runs_bind; [apply runs_print | intros _].
  apply runs_try.
  - apply runs_bind; [apply runs_subprocess | intros result].
    apply runs_bind; [apply runs_print | intros _; apply runs_ret].
  - intros e. destruct e; try apply runs_raise.
    repeat (apply runs_bind; [apply runs_print | intros _]).
    apply runs_raise.
Qed.

Lemma download_data_type_steps_run segment_id target entry :
  runs_as (download_data_type_steps os segment_id target entry)
          (download_data_type os segment_id target entry).
Proof.
  destruct entry as [data_type folder_name].
  unfold download_data_type_steps, download_data_type.
  apply runs_bind; [apply runs_mkdir | intros _].
  apply runs_bind; [apply run_command_steps_run | intros _; apply runs_ret].
Qed.

(** Run alone, the code of a task does what [download_scene_data] does. *)
Lemma download_scene_data_steps_run scene_id target filename w :
  run_prog (download_scene_data_steps os scene_id target filename) w
  = download_scene_data os scene_id target filename w.
Proof.
  revert w. change (runs_as (download_scene_data_steps os scene_id target filename)
                            (download_scene_data os scene_id target filename)).
  unfold download_scene_data_steps, download_scene_data.
  apply runs_bind; [apply runs_print | intros _].
  apply runs_bind.
  { unfold download_tfrecord_file_steps, download_tfrecord_file.
    apply runs_bind; [apply run_command_steps_run | intros _; apply runs_ret]. }
  intros _. apply runs_bind.
  { unfold derive_segment_id_steps, derive_segment_id.
    destruct (startswith filename "segment-"
              && endswith filename "_with_camera_labels");
      [apply runs_ret|].
    apply runs_bind; [apply runs_print | intros _; apply runs_ret]. }
  intros segment_id. apply runs_bind; [|intros _; apply runs_print].
  apply runs_for_each. intros entry. apply download_data_type_steps_run.
Qed.

(** What [run_command] leaves behind in a thread, whatever the other
    threads do. *)
Lemma run_command_emits cmd description h r :
  emits (run_command_steps os cmd description) h r ->
  exists rc err,
    h = run_command_events cmd description rc err
    /\ r = if (rc =? 0)%Z then Ok (rc, err)
           else Raise (Exception ("Command failed: " +:+ err)).
Proof.
  unfold run_command_steps. intros H.
  apply emits_step_inv in H as (w1 & h1 & -> & H). cbn in H.
  apply emits_step_inv in H as (w2 & h2 & -> & H). cbn in H.
  apply emits_step_inv in H as (w3 & h3 & -> & H).
  destruct (shell os (trace w3) cmd) as [rc err]. cbn [fst] in *.
  exists rc, err. unfold run_command_events.
  destruct (rc =? 0)%Z; cbn in H.
  - apply emits_step_inv in H as (w4 & h4 & -> & H). cbn in H.
    by apply emits_done_inv in H as [-> ->].
  - apply emits_step_inv in H as (w4 & h4 & -> & H). cbn in H.
    apply emits_step_inv in H as (w5 & h5 & -> & H). cbn in H.
    apply emits_step_inv in H as (w6 & h6 & -> & H). cbn in H.
    by apply emits_done_inv in H as [-> ->].
Qed.

Lemma download_parsed_loop_emits segment_id target l h r :
  emits (for_each_steps l (download_data_type_steps os segment_id target)) h r ->
  fetch_outcome (map (category_command segment_id target) l)
                (map (category_dir target) l) r h.
Proof.
  revert h. induction l as [|entry l IH]; intros h H.
  - cbn [for_each_steps] in H. apply emits_done_inv in H as [-> ->].
    apply fetch_outcome_nil.
  - cbn [for_each_steps map] in *.
    apply emits_bind_inv in H
      as [(e & H & ->) | ([] & h1 & h2 & H1 & H2 & ->)].
    + destruct entry as [data_type folder_name].
      unfold download_data_type_steps, mkdir_steps in H.
      unfold category_dir at 1. cbn [snd].
      destruct (mkdir_error os (div target folder_name)) as [e'|] eqn:Emk.
      * cbn [bind_steps try_steps print_steps] in H.
        apply emits_done_inv in H as [-> [= ->]].
        by apply fetch_outcome_blocked.
      * cbn [bind_steps try_steps print_steps] in H.
        apply emits_step_inv in H as (w1 & h1 & -> & H).
        cbn [bind_steps try_steps print_steps] in H.
        apply emits_bind_inv in H
          as [(e' & H & [= ->]) | (a & h2 & h3 & _ & H3 & _)].
        2:{ by apply emits_done_inv in H3 as [_ [=]]. }
        apply run_command_emits in H as (rc & err & -> & Hr).
        destruct (rc =? 0)%Z eqn:Erc; [discriminate Hr|].
        injection Hr as ->.
        apply fetch_outcome_failed. by apply Z.eqb_neq.
    + destruct entry as [data_type folder_name].
      unfold download_data_type_steps, mkdir_steps in H1.
      unfold category_dir at 1. cbn [snd].
      destruct (mkdir_error os (div target folder_name)) as [e'|] eqn:Emk.
      * cbn [bind_steps try_steps print_steps] in H1.
        by apply emits_done_inv in H1 as [_ [=]].
      * cbn [bind_steps try_steps print_steps] in H1.
        apply emits_step_inv in H1 as (w1 & h1' & -> & H1).
        cbn [bind_steps try_steps print_steps] in H1.
        apply emits_bind_inv in H1
          as [(e' & _ & [=]) | (a & h3 & h4 & H3 & H4 & ->)].
        apply emits_done_inv in H4 as [-> _]. rewrite app_nil_r.
        apply run_command_emits in H3 as (rc & err & -> & Hr).
        destruct (rc =? 0)%Z eqn:Erc; [|discriminate Hr].
        apply Z.eqb_eq in Erc. subst rc. rewrite <- app_comm_cons.
        apply (fetch_outcome_ok _ _ _ _ _ _ _ _ (IH _ H2)).
Qed.

Lemma derive_segment_id_emits scene_id filename h r :
  emits (derive_segment_id_steps scene_id filename) h r ->
  h = (if matches_pattern filename then [] else [warning filename])
  /\ r = Ok (secondary_id scene_id filename).
Proof.
  unfold derive_segment_id_steps, secondary_id, matches_pattern.
  destruct (startswith filename "segment-"
            && endswith filename "_with_camera_labels"); intros H.
  - by apply emits_done_inv in H as [-> ->].
  - cbn [bind_steps try_steps print_steps] in H.
    apply emits_step_inv in H as (w & h' & -> & H).
    cbn [bind_steps try_steps print_steps] in H.
    by apply emits_done_inv in H as [-> ->].
Qed.

(** What a scene fetch leaves behind in a thread, whatever the other
    threads do: the header and the primary request first, and a history
    and a result that go together as [fetch_outcome] says. *)
Lemma download_scene_data_emits scene_id target filename h r :
  emits (download_scene_data_steps os scene_id target filename) h r ->
  fetch_outcome (scene_plan scene_id target filename) (scene_dirs target) r h
  /\ exists rc err rest,
       h = scene_header scene_id
           :: run_command_events (primary_command target filename)
                (primary_description filename) rc err ++ rest.
Proof.
  unfold download_scene_data_steps. intros H.
  apply emits_step_inv in H as (w1 & h1 & -> & H).
  cbn [bind_steps try_steps print_steps] in H.
  fold (scene_header scene_id).
  apply emits_bind_inv in H as [(e & H & ->) | ([] & h2 & h3 & H2 & H3 & ->)].
  - unfold download_tfrecord_file_steps in H.
    apply emits_bind_inv in H
      as [(e' & H & [= ->]) | (a & h2 & h3 & _ & H3 & _)].
    2:{ by apply emits_done_inv in H3 as [_ [=]]. }
    apply run_command_emits in H as (rc & err & -> & Hr).
    destruct (rc =? 0)%Z eqn:Erc; [discriminate Hr|]. injection Hr as ->.
    destruct (download_parsed_loop (secondary_id scene_id filename) target
                data_types empty_world) as (evs & _ & Hout).
    pose proof (scene_outcome scene_id target filename rc err _ _ Hout) as Hs.
    unfold scene_events, scene_result in Hs. rewrite Erc, app_nil_r in Hs.
    split; [exact Hs|]. exists rc, err, []. by rewrite app_nil_r.
  - unfold download_tfrecord_file_steps in H2.
    apply emits_bind_inv in H2
      as [(e' & _ & [=]) | (a & h4 & h5 & H4 & H5 & ->)].
    apply emits_done_inv in H5 as [-> _]. rewrite app_nil_r.
    apply run_command_emits in H4 as (rc & err & -> & Hr).
    destruct (rc =? 0)%Z eqn:Erc; [|discriminate Hr]. clear Hr.
    apply emits_bind_inv in H3
      as [(e' & H3 & _) | (segment_id & h6 & h7 & H6 & H7 & ->)].
    { by apply derive_segment_id_emits in H3 as [_ [=]]. }
    apply derive_segment_id_emits in H6 as [-> [= ->]].
    apply emits_bind_inv in H7 as [(e & H7 & ->) | ([] & h8 & h9 & H8 & H9 & ->)].
    + apply download_parsed_loop_emits in H7.
      pose proof (scene_outcome scene_id target filename rc err _ _ H7) as Hs.
      unfold scene_events, scene_result in Hs. rewrite Erc in Hs.
      cbn [is_ok] in Hs. rewrite app_nil_r in Hs.
      split; [exact Hs | by eexists _, _, _].
    + apply emits_step_inv in H9 as (w9 & h9' & -> & H9).
      cbn [bind_steps try_steps print_steps] in H9.
      apply emits_done_inv in H9 as [-> ->].
      apply download_parsed_loop_emits in H8.
      pose proof (scene_outcome scene_id target filename rc err _ _ H8) as Hs.
      unfold scene_events, scene_result in Hs. rewrite Erc in Hs.
      cbn [is_ok] in Hs.
      split; [exact Hs | by eexists _, _, _].
Qed.

End Facts.

(** C6. Within one scene the fetch stops at the first failed copy: the
    primary request is always the first one; whenever a request ends with
    a non-zero status the scene fetch raises and the rest of its history
    holds no request and no directory creation; so a failed primary
    request leaves the categories untouched, and a failed category
    leaves the remaining ones unrequested. *)
Theorem C6_fail_fast_within_scene os scene_id target filename w :
  let r := (download_scene_data os scene_id target filename w).1 in
  let w' := (download_scene_data os scene_id target filename w).2 in
  exists rc rest,
    let evs := [ scene_header scene_id;
                 Print ("Running: " +:+ primary_description filename);
                 Print ("Command: " +:+ primary_command target filename);
                 Run (primary_command target filename) rc ] ++ rest in
    trace w' = trace w ++ evs
    /\ (rc <> 0%Z ->
        is_ok r = false /\ commands rest = [] /\ made_dirs rest = [])
    /\ (forall pre cmd rc' post,
          evs = pre ++ Run cmd rc' :: post -> rc' <> 0%Z ->
          is_ok r = false /\ commands post = [] /\ made_dirs post = [])
    /\ (exists k, commands evs = take k (scene_plan scene_id target filename)).
Proof.
  cbv zeta.
  destruct (download_scene_data_outcome os scene_id target filename w)
    as (evs & Htr & (Hhalt & Hok & _ & _ & Hk & _) & rest & Hevs).
  set (h := trace w ++ _) in Hevs.
  set (rc := (shell os h (primary_command target filename)).1) in Hevs.
  set (err := (shell os h (primary_command target filename)).2) in Hevs.
  unfold run_command_events in Hevs. cbn [app] in Hevs.
  exists rc. eexists. rewrite Htr, Hevs.
  assert (Hgen : forall pre cmd rc' post,
             evs = pre ++ Run cmd rc' :: post -> rc' <> 0%Z ->
             is_ok (download_scene_data os scene_id target filename w).1 = false
             /\ commands post = [] /\ made_dirs post = []).
  { intros pre cmd rc' post E Hrc. split.
    - destruct (is_ok _) eqn:Eok; [|reflexivity].
      pose proof (Hok eq_refl) as Hall.
      rewrite E, all_succeeded_failed in Hall by exact Hrc. discriminate Hall.
    - apply prints_no_effects. eapply Hhalt; eauto. }
  rewrite Hevs in Hgen, Hk.
  split; [reflexivity|]. split; [|split].
  - intros Hrc. eapply (Hgen [_; _; _]); [reflexivity | exact Hrc].
  - exact Hgen.
  - exact Hk.
Qed.

(** The seven category names of the table. *)
Definition categories : list string :=
  [ "lidar"; "lidar_box"; "lidar_calibration"; "lidar_camera_projection";
    "lidar_camera_synced_box"; "lidar_pose"; "vehicle_pose" ].

Lemma data_types_categories :
  data_types = map (fun name => (name, name)) categories.
Proof. reflexivity. Qed.

Lemma category_dir_below target category :
  In category categories ->
  div target category = mkPath (root target) (parts target ++ [category]).
Proof.
  unfold categories. simpl.
  intros H. repeat (destruct H as [<- | H]; [reflexivity|]). destruct H.
Qed.

Lemma scene_dirs_categories target :
  scene_dirs target = map (div target) categories.
Proof. reflexivity. Qed.

Lemma scene_plan_categories scene_id target filename :
  scene_plan scene_id target filename
  = primary_command target filename
    :: map (fun category =>
              copy_command
                (parquet_url category (secondary_id scene_id filename))
                (div target category))
           categories.
Proof. reflexivity. Qed.





(** Surroundings in which every command fails. *)
Definition failing_os : OS :=
  mkOS (fun _ => None) (fun _ _ => (1%Z, "AccessDenied")) (fun _ _ => []) [].


End SceneFetch.

(* ===================================================================== *)
(** ** The index resolver                                                 *)
(* ===================================================================== *)

Module Resolver.
Import PyStr PyPath Eff Downloader Runs.
Local Open Scope list_scope.
Local Open Scope Z_scope.

(** A comprehension whose body leaves the world alone is a traversal. *)
Fixpoint traverse {A B} (g : A -> res B) (l : list A) : res (list B) :=
  match l with
  | [] => Ok []
  | x :: l' =>
      match g x with
      | Ok y => match traverse g l' with
                | Ok ys => Ok (y :: ys)
                | Raise e => Raise e
                end
      | Raise e => Raise e
      end
  end.

Lemma map_m_pure {A B} (f : A -> M B) (g : A -> res B) l w :
  (forall x w, f x w = (g x, w)) -> map_m f l w = (traverse g l, w).
Proof.
  intros Hf. induction l as [|x l IH]; [reflexivity|].
  cbn [map_m traverse]. unfold bind at 1. rewrite Hf.
  destruct (g x) as [y|e]; [|reflexivity].
  unfold bind. rewrite IH. by destruct (traverse g l).
Qed.

Lemma traverse_ok {A B} (g : A -> res B) (h : A -> B) l :
  (forall x, In x l -> g x = Ok (h x)) -> traverse g l = Ok (map h l).
Proof.
  induction l as [|x l IH]; intros H; [reflexivity|].
  cbn [traverse map]. rewrite (H x) by (by left).
  rewrite IH; [reflexivity|]. intros y Hy. apply H. by right.
Qed.

Lemma traverse_Forall2 {A B} (g : A -> res B) l ys :
  traverse g l = Ok ys <-> Forall2 (fun x y => g x = Ok y) l ys.
Proof.
  revert ys. induction l as [|x l IH]; intros ys; cbn [traverse].
  - split.
    + intros [= <-]. constructor.
    + intros H. by inversion H.
  - split.
    + destruct (g x) as [y|e] eqn:Ex; [|discriminate].
      destruct (traverse g l) as [zs|e] eqn:El; [|discriminate].
      intros [= <-]. constructor; [exact Ex|]. by apply IH.
    + intros H. inversion H as [|? y ? zs Hx Hl]; subst.
      rewrite Hx. apply IH in Hl. by rewrite Hl.
Qed.

(** A comprehension fails with the error of its first failing element, so
    with the one error its elements can raise. *)
Lemma traverse_raise {A B} (g : A -> res B) l x e :
  In x l -> g x = Raise e ->
  (forall y e', g y = Raise e' -> e' = e) ->
  traverse g l = Raise e.
Proof.
  intros Hin Hx Hall. induction l as [|y l IH]; [destruct Hin|].
  cbn [traverse]. destruct (g y) as [v|e'] eqn:Ey.
  - destruct Hin as [-> | Hin]; [congruence|].
    by rewrite (IH Hin).
  - by rewrite (Hall _ _ Ey).
Qed.

(** The position Python reads for an index into [n] elements. *)
Definition position (n : nat) (i : Z) : nat :=
  Z.to_nat (if i <? 0 then Z.of_nat n + i else i).

Lemma getitem_in_range {A} (l : list A) (d : A) i :
  - Z.of_nat (length l) <= i < Z.of_nat (length l) ->
  getitem l i = Ok (nth (position (length l) i) l d).
Proof.
  intros Hi. unfold getitem, position.
  set (j := if i <? 0 then Z.of_nat (length l) + i else i).
  assert (Hj : 0 <= j < Z.of_nat (length l)).
  { subst j. destruct (i <? 0) eqn:E; [apply Z.ltb_lt in E | apply Z.ltb_ge in E]; lia. }
  replace ((0 <=? j) && (j <? Z.of_nat (length l)))%bool with true
    by (symmetry; apply andb_true_iff; split;
        [apply Z.leb_le | apply Z.ltb_lt]; lia).
  destruct (nth_error l (Z.to_nat j)) as [x|] eqn:E.
  - f_equal. symmetry. by apply nth_error_nth.
  - apply nth_error_None in E. lia.
Qed.

Lemma getitem_past_end {A} (l : list A) i :
  Z.of_nat (length l) <= i -> getitem l i = Raise IndexError.
Proof.
  intros Hi. unfold getitem.
  replace (i <? 0) with false by (symmetry; apply Z.ltb_ge; lia).
  replace (i <? Z.of_nat (length l)) with false
    by (symmetry; apply Z.ltb_ge; lia).
  by rewrite andb_false_r.
Qed.

Lemma getitem_raises {A} (l : list A) i e :
  getitem l i = Raise e -> e = IndexError.
Proof.
  unfold getitem.
  destruct (_ && _)%bool; [|congruence].
  destruct (nth_error _ _); congruence.
Qed.

(** One element of the comprehension of [select_file_names]. *)
Definition file_name_at (total_list : list string) (i : Z) : res string :=
  match getitem total_list i with
  | Ok line => Ok (strip line)
  | Raise e => Raise e
  end.

Lemma select_file_names_run total_list scene_ids w :
  select_file_names total_list scene_ids w
  = (traverse (file_name_at total_list) scene_ids, w).
Proof.
  apply map_m_pure. intros i w0. unfold bind, lift, file_name_at.
  by destruct (getitem total_list i).
Qed.

Section Facts.
Variable os : OS.

(** With the index file in place, resolving is reading and selecting. *)
Lemma resolve_file_names_run scene_ids path content w :
  files os path = Some content ->
  resolve_file_names os scene_ids path w
  = (traverse (file_name_at (readlines content)) scene_ids, w).
Proof.
  intros Hf. unfold resolve_file_names, bind, path_exists, open_readlines.
  rewrite Hf. rewrite bool_decide_eq_true_2 by eauto. cbn [orb negb].
  unfold ret. apply select_file_names_run.
Qed.

(** When resolving raises, the orchestrator stops right after ensuring
    the target directory. *)
Lemma download_training_data_stops scene_ids target path w e w1 :
  mkdir_error os (parse target) = None ->
  resolve_file_names os scene_ids path (apply_event (Mkdir (parse target)) w)
  = (Raise e, w1) ->
  download_training_data os scene_ids target path w = (Raise e, w1).
Proof.
  intros Hmk H. unfold download_training_data. unfold bind at 1.
  unfold mkdir at 1. rewrite Hmk.
  unfold bind at 1. by rewrite H.
Qed.

(** When a regular file is in the way of the target directory, the
    orchestrator stops there, having done nothing. *)
Lemma download_training_data_blocked scene_ids target path w e :
  mkdir_error os (parse target) = Some e ->
  download_training_data os scene_ids target path w = (Raise e, w).
Proof.
  intros Hmk. unfold download_training_data. unfold bind at 1.
  unfold mkdir at 1. by rewrite Hmk.
Qed.

Lemma mkdir_error_exit_status p e :
  mkdir_error os p = Some e -> exit_status (@Raise unit e) = 1.
Proof.
  unfold mkdir_error. destruct (existsb _ _); [by intros [= <-]|].
  destruct (is_file os p); [by intros [= <-] | discriminate].
Qed.

(** [main] without a split file is its two lines and the orchestrator. *)
Lemma main_without_split_file target scene_ids path w :
  main os (mkArgs target scene_ids None path) w
  = download_training_data os scene_ids target path
      (extend w
         [ Print "Note: `gcloud auth login` is required before running this script";
           Print "Downloading Waymo training dataset from Google Cloud Storage..." ]).
Proof.
  unfold main. cbn [arg_split_file arg_scene_ids arg_target_dir
                    arg_waymo_train_list].
  unfold bind at 1. rewrite print_run. unfold bind at 1. rewrite print_run.
  unfold bind at 1. unfold ret at 1. by rewrite extend_extend.
Qed.

End Facts.

(** C3. With the index file in place, a requested index at or past its
    number of lines makes resolving raise [IndexError]: no record is
    produced for any scene. Where the target directory can be ensured,
    the orchestrator ends with that error right after ensuring it,
    nothing catches it in [main], and the exit status is not zero. Where
    a regular file is in the way of the target directory, the
    orchestrator has ended before resolving, with the error of the
    [mkdir], and the exit status is not zero either: in no case is the
    index skipped. *)
Theorem C3_index_past_end_is_fatal os scene_ids target path content w i :
  files os path = Some content ->
  In i scene_ids ->
  Z.of_nat (length (readlines content)) <= i ->
  resolve_file_names os scene_ids path w = (Raise IndexError, w)
  /\ (mkdir_error os (parse target) = None ->
      let run := download_training_data os scene_ids target path w in
      run.1 = Raise IndexError
      /\ exit_status run.1 <> 0
      /\ trace run.2 = trace w ++ [Mkdir (parse target)]
      /\ (main os (mkArgs target scene_ids None path) w).1 = Raise IndexError)
  /\ (forall e,
        mkdir_error os (parse target) = Some e ->
        let run := download_training_data os scene_ids target path w in
        run = (Raise e, w)
        /\ exit_status run.1 <> 0
        /\ (main os (mkArgs target scene_ids None path) w).1 = Raise e)
  /\ is_ok (download_training_data os scene_ids target path w).1 = false
  /\ is_ok (main os (mkArgs target scene_ids None path) w).1 = false.
Proof.
  intros Hf Hin Hi.
  assert (Hres : forall w0,
             resolve_file_names os scene_ids path w0 = (Raise IndexError, w0)).
  { intros w0. rewrite (resolve_file_names_run os _ _ content) by exact Hf.
    f_equal. apply (traverse_raise _ _ i); [exact Hin | |].
    - unfold file_name_at. by rewrite getitem_past_end.
    - intros y e'. unfold file_name_at.
      destruct (getitem _ y) eqn:E; [discriminate|].
      intros [= <-]. by apply getitem_raises in E. }
  split; [apply Hres|].
  rewrite main_without_split_file.
  destruct (mkdir_error os (parse target)) as [e|] eqn:Emk.
  - pose proof (fun w0 => download_training_data_blocked os scene_ids target
                            path w0 e Emk) as Hrun.
    rewrite !Hrun. cbn [fst snd].
    split; [discriminate|]. split; [|done].
    intros e' [= <-]. cbv zeta. split; [reflexivity|]. split; [|reflexivity].
    rewrite (mkdir_error_exit_status os _ _ Emk). discriminate.
  - pose proof (fun w0 => download_training_data_stops os scene_ids target
                            path w0 IndexError _ Emk (Hres _)) as Hrun.
    rewrite !Hrun. cbn [fst snd exit_status apply_event trace].
    split; [|split; [discriminate | done]].
    intros _. repeat split; done.
Qed.

(** An index file of two lines, the first one indented. *)
Definition padded_os : OS :=
  mkOS (fun s => if String.eqb s "list.txt"
                 then Some (" a" +:+ nl +:+ "b" +:+ nl) else None)
       (fun _ _ => (0, "")) (fun _ _ => []) [].

Lemma C3_index_past_end_witness :
  files padded_os "list.txt" = Some (" a" +:+ nl +:+ "b" +:+ nl)
  /\ In 2 [0; 2]
  /\ Z.of_nat (length (readlines (" a" +:+ nl +:+ "b" +:+ nl))) <= 2
  /\ resolve_file_names padded_os [0; 2] "list.txt" empty_world
     = (Raise IndexError, empty_world)
  /\ (download_training_data padded_os [0; 2] "out" "list.txt" empty_world).1
     = Raise IndexError
  /\ download_training_data padded_os [0; 2] "list.txt" "list.txt" empty_world
     = (Raise (FileExistsError "list.txt"), empty_world).
Proof.
  split; [reflexivity|]. split; [right; left; reflexivity|].
  split; [vm_compute; discriminate|].
  assert (Hin : In 2 [0; 2]) by (right; left; reflexivity).
  assert (Hlen : Z.of_nat (length (readlines (" a" +:+ nl +:+ "b" +:+ nl))) <= 2)
    by (vm_compute; discriminate).
  destruct (C3_index_past_end_is_fatal padded_os [0; 2] "out" "list.txt"
              (" a" +:+ nl +:+ "b" +:+ nl) empty_world 2 eq_refl Hin Hlen)
    as (Hres & Hrun & _).
  destruct (C3_index_past_end_is_fatal padded_os [0; 2] "list.txt" "list.txt"
              (" a" +:+ nl +:+ "b" +:+ nl) empty_world 2 eq_refl Hin Hlen)
    as (_ & _ & Hblocked & _).
  split; [exact Hres|]. split.
  - exact (proj1 (Hrun eq_refl)).
  - exact (proj1 (Hblocked (FileExistsError "list.txt") eq_refl)).
Defined.

(** C4, as the code has it. For indices that are all valid zero-based
    line offsets, resolving returns one record per index, in the order
    requested, each the line at that offset with its leading and trailing
    whitespace removed, and prints nothing; an index file that agrees on
    the requested lines gives the same records, whatever else it
    holds. *)
Theorem C4_resolve_in_order os path content scene_ids w :
  files os path = Some content ->
  (forall i, In i scene_ids ->
             0 <= i < Z.of_nat (length (readlines content))) ->
  resolve_file_names os scene_ids path w
  = (Ok (map (fun i => strip (nth (Z.to_nat i) (readlines content) ""))
             scene_ids), w)
  /\ forall os' content',
       files os' path = Some content' ->
       (forall i, In i scene_ids ->
                  0 <= i < Z.of_nat (length (readlines content'))
                  /\ nth (Z.to_nat i) (readlines content') ""
                     = nth (Z.to_nat i) (readlines content) "") ->
       resolve_file_names os' scene_ids path w
       = resolve_file_names os scene_ids path w.
Proof.
  intros Hf Hin.
  assert (Hgen : forall os0 content0,
             files os0 path = Some content0 ->
             (forall i, In i scene_ids ->
                        0 <= i < Z.of_nat (length (readlines content0))) ->
             resolve_file_names os0 scene_ids path w
             = (Ok (map (fun i => strip (nth (Z.to_nat i) (readlines content0) ""))
                        scene_ids), w)).
  { intros os0 content0 Hf0 Hin0.
    rewrite (resolve_file_names_run os0 _ _ content0) by exact Hf0.
    f_equal. apply traverse_ok. intros i Hi. unfold file_name_at.
    rewrite (getitem_in_range _ "") by (specialize (Hin0 i Hi); lia).
    unfold position.
    replace (i <? 0) with false
      by (symmetry; apply Z.ltb_ge; specialize (Hin0 i Hi); lia).
    reflexivity. }
  split; [by apply Hgen|].
  intros os' content' Hf' Hsame.
  rewrite (Hgen os' content' Hf') by (intros i Hi; apply Hsame, Hi).
  rewrite (Hgen os content Hf Hin).
  f_equal. f_equal. apply map_ext_in. intros i Hi.
  by rewrite (proj2 (Hsame i Hi)).
Qed.

Lemma C4_resolve_witness :
  files padded_os "list.txt" = Some (" a" +:+ nl +:+ "b" +:+ nl)
  /\ resolve_file_names padded_os [1; 0; 1] "list.txt" empty_world
     = (Ok ["b"; "a"; "b"], empty_world).
Proof.
  split; [reflexivity|].
  refine (proj1 (C4_resolve_in_order padded_os "list.txt"
                   (" a" +:+ nl +:+ "b" +:+ nl) [1; 0; 1] empty_world eq_refl _)).
  intros i [<- | [<- | [<- | []]]]; vm_compute; split; congruence.
Defined.

(** C4 as stated fails: the record of an indented line is not the line
    with only its trailing whitespace removed. *)
Lemma C4_counterexample :
  (resolve_file_names padded_os [0] "list.txt" empty_world).1 = Ok ["a"]
  /\ map (fun i => rstrip (nth (Z.to_nat i)
                               (readlines (" a" +:+ nl +:+ "b" +:+ nl)) ""))
         [0] = [" a"]
  /\ (resolve_file_names padded_os [0] "list.txt" empty_world).1
     <> Ok (map (fun i => rstrip (nth (Z.to_nat i)
                                     (readlines (" a" +:+ nl +:+ "b" +:+ nl)) ""))
                [0]).
Proof. vm_compute. repeat split; discriminate. Qed.

(** C9. A negative index no lower than minus the number of lines raises
    nothing and prints nothing: the record is the line counted from the
    end of the file, at position line count plus index. *)
Theorem C9_negative_index_counts_from_end os path content scene_ids w :
  files os path = Some content ->
  (forall i, In i scene_ids ->
             - Z.of_nat (length (readlines content)) <= i < 0) ->
  resolve_file_names os scene_ids path w
  = (Ok (map (fun i =>
                strip (nth (Z.to_nat (Z.of_nat (length (readlines content)) + i))
                           (readlines content) ""))
             scene_ids), w).
Proof.
  intros Hf Hin.
  rewrite (resolve_file_names_run os _ _ content) by exact Hf.
  f_equal. apply traverse_ok. intros i Hi. unfold file_name_at.
  rewrite (getitem_in_range _ "") by (specialize (Hin i Hi); lia).
  unfold position.
  replace (i <? 0) with true
    by (symmetry; apply Z.ltb_lt; specialize (Hin i Hi); lia).
  reflexivity.
Qed.

Lemma C9_negative_index_witness :
  files padded_os "list.txt" = Some (" a" +:+ nl +:+ "b" +:+ nl)
  /\ resolve_file_names padded_os [-1; -2] "list.txt" empty_world
     = (Ok ["b"; "a"], empty_world).
Proof.
  split; [reflexivity|].
  refine (C9_negative_index_counts_from_end padded_os "list.txt"
            (" a" +:+ nl +:+ "b" +:+ nl) [-1; -2] empty_world eq_refl _).
  intros i [<- | [<- | []]]; vm_compute; split; congruence.
Defined.

End Resolver.

(* ===================================================================== *)
(** ** The split file                                                     *)
(* ===================================================================== *)

Module SplitFile.
Import PyStr PyPath Eff Downloader Runs Resolver.
Local Open Scope list_scope.
Local Open Scope Z_scope.

(** The first comma-delimited field, in the words of the specification:
    what stands before the first comma, or everything when there is
    none. *)
Fixpoint first_field (s : string) : string :=
  match s with
  | "" => ""
  | String c s' => if Ascii.eqb c "," then "" else String c (first_field s')
  end.

Lemma append_cons x (a b : string) : String x a +:+ b = String x (a +:+ b).
Proof. reflexivity. Qed.

Lemma append_assoc (a b c : string) : (a +:+ b) +:+ c = a +:+ (b +:+ c).
Proof.
  induction a as [|x a IH]; [reflexivity|]. by rewrite !append_cons, IH.
Qed.

Lemma append_empty_r (a : string) : a +:+ "" = a.
Proof.
  induction a as [|x a IH]; [reflexivity|]. by rewrite append_cons, IH.
Qed.

Lemma prefix_comma c s : String.prefix "," (String c s) = Ascii.eqb c ",".
Proof.
  cbn [String.prefix]. destruct (ascii_dec "," c) as [<- | Hne].
  - by destruct s.
  - symmetry. apply Ascii.eqb_neq. congruence.
Qed.

(** The head of [s.split(",")] is the first field. *)
Lemma split_from_head cur s :
  exists rest, split_from "," 0 cur s = (cur +:+ first_field s) :: rest.
Proof.
  revert cur. induction s as [|c s IH]; intros cur.
  - exists []. simpl. by rewrite append_empty_r.
  - cbn [split_from first_field]. rewrite prefix_comma.
    destruct (Ascii.eqb c ",").
    + eexists. by rewrite append_empty_r.
    + destruct (IH (cur +:+ String c "")) as [rest ->].
      exists rest. by rewrite append_assoc.
Qed.

Lemma split_first s : getitem (split s ",") 0 = Ok (first_field s).
Proof.
  unfold split. destruct (split_from_head "" s) as [rest ->]. reflexivity.
Qed.

(** Stripping the line first does not change what [int] reads in its
    first field: [int] strips its argument anyway, and a comma is not
    whitespace. *)
Lemma isspace_not_comma c : isspace c = true -> Ascii.eqb c "," = false.
Proof.
  intros H. destruct (Ascii.eqb_spec c ","%char) as [-> | Hne];
    [discriminate H | reflexivity].
Qed.

Lemma rstrip_cons c s :
  rstrip (String c s)
  = match rstrip s with
    | "" => if isspace c then "" else String c ""
    | r => String c r
    end.
Proof. reflexivity. Qed.

Lemma lstrip_rstrip s : lstrip (rstrip s) = rstrip (lstrip s).
Proof.
  induction s as [|c s IH]; [reflexivity|].
  rewrite rstrip_cons. cbn [lstrip].
  destruct (isspace c) eqn:Ec.
  - rewrite <- IH. destruct (rstrip s) as [|d r]; [reflexivity|].
    cbn [lstrip]. by rewrite Ec.
  - rewrite rstrip_cons.
    destruct (rstrip s) as [|d r]; cbn [lstrip]; by rewrite Ec.
Qed.

Lemma lstrip_idem s : lstrip (lstrip s) = lstrip s.
Proof.
  induction s as [|c s IH]; [reflexivity|]. cbn [lstrip].
  destruct (isspace c) eqn:Ec; [exact IH|]. cbn [lstrip]. by rewrite Ec.
Qed.

Lemma first_field_lstrip s : first_field (lstrip s) = lstrip (first_field s).
Proof.
  induction s as [|c s IH]; [reflexivity|]. cbn [lstrip first_field].
  destruct (isspace c) eqn:Ec.
  - rewrite (isspace_not_comma c Ec). cbn [lstrip]. by rewrite Ec.
  - cbn [first_field]. destruct (Ascii.eqb c ","); [reflexivity|].
    cbn [lstrip]. by rewrite Ec.
Qed.

Lemma rstrip_first_field_rstrip s :
  rstrip (first_field (rstrip s)) = rstrip (first_field s).
Proof.
  induction s as [|c s IH]; [reflexivity|].
  rewrite rstrip_cons. cbn [first_field].
  destruct (Ascii.eqb c ",") eqn:Ecomma.
  - assert (Hsp : isspace c = false).
    { destruct (isspace c) eqn:E; [|reflexivity].
      rewrite (isspace_not_comma c E) in Ecomma. discriminate Ecomma. }
    rewrite Hsp.
    destruct (rstrip s); cbn [first_field]; by rewrite Ecomma.
  - rewrite rstrip_cons, <- IH.
    destruct (rstrip s) as [|d r].
    + destruct (isspace c) eqn:Ec; [reflexivity|].
      cbn [first_field]. rewrite Ecomma. cbn [rstrip first_field].
      by rewrite Ec.
    + cbn [first_field]. rewrite Ecomma. by rewrite rstrip_cons.
Qed.

Lemma strip_first_field_strip line :
  strip (first_field (strip line)) = strip (first_field line).
Proof.
  unfold strip.
  rewrite <- (lstrip_rstrip (first_field _)), rstrip_first_field_rstrip.
  rewrite lstrip_rstrip, first_field_lstrip, lstrip_idem. reflexivity.
Qed.

Lemma int_first_field_strip line :
  int (first_field (strip line)) = int (first_field line).
Proof. unfold int. by rewrite strip_first_field_strip. Qed.

(** One element of the comprehension over the split lines. *)
Definition scene_id_of_line (line : string) : res Z :=
  match int (first_field line) with
  | Some n => Ok n
  | None => Raise (ValueError (first_field (strip line)))
  end.

Lemma split_scene_id_run line w :
  split_scene_id line w = (scene_id_of_line line, w).
Proof.
  unfold split_scene_id, bind, lift, scene_id_of_line.
  rewrite split_first, int_first_field_strip. by destruct (int _).
Qed.

Section Facts.
Variable os : OS.

Lemma read_split_file_run split_file content w :
  files os split_file = Some content ->
  read_split_file os split_file w
  = (traverse scene_id_of_line (drop 1 (readlines content)), w).
Proof.
  intros Hf. unfold read_split_file, bind, path_exists, open_readlines.
  rewrite Hf. rewrite bool_decide_eq_true_2 by eauto. cbn [orb negb].
  unfold ret. apply map_m_pure. apply split_scene_id_run.
Qed.

End Facts.

(** C5. Reading a split file drops its first line and turns every other
    line, in order, into the integer its first comma-delimited field
    denotes: it returns exactly the list of those integers whenever each
    field denotes one, and whatever it returns is that list; a header
    followed by the rows [7,foo] and [12,bar] gives [[7; 12]]. *)
Theorem C5_split_file_scene_ids os split_file content w :
  files os split_file = Some content ->
  (forall ids,
      Forall2 (fun line n => int (first_field line) = Some n)
              (drop 1 (readlines content)) ids ->
      read_split_file os split_file w = (Ok ids, w))
  /\ (forall ids w',
        read_split_file os split_file w = (Ok ids, w') ->
        w' = w
        /\ length ids = (length (readlines content) - 1)%nat
        /\ Forall2 (fun line n => int (first_field line) = Some n)
                   (drop 1 (readlines content)) ids)
  /\ (forall header,
        readlines content = [header; "7,foo" +:+ nl; "12,bar" +:+ nl] ->
        read_split_file os split_file w = (Ok [7; 12], w)).
Proof.
  intros Hf.
  assert (Hiff : forall ids,
             traverse scene_id_of_line (drop 1 (readlines content)) = Ok ids
             <-> Forall2 (fun line n => int (first_field line) = Some n)
                         (drop 1 (readlines content)) ids).
  { intros ids. rewrite traverse_Forall2. split; intros H.
    - eapply Forall2_impl; [exact H|]. intros line n. unfold scene_id_of_line.
      destruct (int _); congruence.
    - eapply Forall2_impl; [exact H|]. intros line n E. unfold scene_id_of_line.
      by rewrite E. }
  rewrite (read_split_file_run os _ content) by exact Hf.
  split; [|split].
  - intros ids H. apply Hiff in H. by rewrite H.
  - intros ids w' [= H <-]. split; [reflexivity|].
    apply Hiff in H. split; [|exact H].
    apply Forall2_length in H. rewrite length_drop in H. lia.
  - intros header ->. reflexivity.
Qed.

(** A split file with a header and two rows. *)
Definition split_os : OS :=
  mkOS (fun s => if String.eqb s "split.csv"
                 then Some ("scene,name" +:+ nl +:+ "7,foo" +:+ nl
                            +:+ "12,bar" +:+ nl)
                 else None)
       (fun _ _ => (0, "")) (fun _ _ => []) [].

Lemma C5_split_file_witness :
  files split_os "split.csv"
  = Some ("scene,name" +:+ nl +:+ "7,foo" +:+ nl +:+ "12,bar" +:+ nl)
  /\ read_split_file split_os "split.csv" empty_world = (Ok [7; 12], empty_world).
Proof.
  split; [reflexivity|].
  exact (proj2 (proj2 (C5_split_file_scene_ids split_os "split.csv" _ empty_world
                         eq_refl)) ("scene,name" +:+ nl) eq_refl).
Defined.

End SplitFile.

(* ===================================================================== *)
(** ** The thread pool, under every schedule                              *)
(* ===================================================================== *)

Module PoolRuns.
Import PyStr PyPath Eff Runs Threads.
Local Open Scope list_scope.
Local Open Scope nat_scope.

(** The threads of a pool: the main thread and the tasks, named by their
    position in the order of submission. *)
Inductive thread :=
| Main
| Worker (i : nat).

Definition same_thread (a b : thread) : bool :=
  match a, b with
  | Main, Main => true
  | Worker i, Worker j => Nat.eqb i j
  | _, _ => false
  end.

(** The events of thread [t], in order, in a history [evs] whose events
    were done by the threads [owners], one for one. *)
Fixpoint events_of (t : thread) (owners : list thread) (evs : list event)
    : list event :=
  match owners, evs with
  | o :: owners', e :: evs' =>
      if same_thread o t then e :: events_of t owners' evs'
      else events_of t owners' evs'
  | _, _ => []
  end.

Lemma same_thread_refl t : same_thread t t = true.
Proof. destruct t; cbn; [done | apply Nat.eqb_refl]. Qed.

Lemma events_of_app t o1 e1 o2 e2 :
  length o1 = length e1 ->
  events_of t (o1 ++ o2) (e1 ++ e2) = events_of t o1 e1 ++ events_of t o2 e2.
Proof.
  revert e1. induction o1 as [|o o1 IH]; intros [|e e1] H;
    try discriminate H; cbn; [done|].
  injection H as H. rewrite IH by done. by destruct (same_thread o t).
Qed.

Lemma events_of_own t h : events_of t (repeat t (length h)) h = h.
Proof.
  induction h as [|e h IH]; cbn; [done|]. by rewrite same_thread_refl, IH.
Qed.

Lemma events_of_other t t' h :
  same_thread t' t = false -> events_of t (repeat t' (length h)) h = [].
Proof. intros E. induction h as [|e h IH]; cbn; [done|]. by rewrite E. Qed.

Lemma events_of_by t t' owners evs h :
  length owners = length evs ->
  events_of t (owners ++ repeat t' (length h)) (evs ++ h)
  = events_of t owners evs ++ (if same_thread t' t then h else []).
Proof.
  intros Hlen. rewrite events_of_app by done. f_equal.
  destruct (same_thread t' t) eqn:E; [|by apply events_of_other].
  assert (t' = t) as ->; [|apply events_of_own].
  destruct t', t; cbn in E; try discriminate; [done|].
  by apply Nat.eqb_eq in E as ->.
Qed.

Lemma apply_events_app h1 h2 w :
  apply_events (h1 ++ h2) w = apply_events h2 (apply_events h1 w).
Proof. apply fold_left_app. Qed.

Lemma enumerate_snoc {A} start (l : list A) x :
  enumerate start (l ++ [x])
  = enumerate start l ++ [((start + Z.of_nat (length l))%Z, x)].
Proof.
  revert start. induction l as [|y l IH]; intros start;
    cbn [enumerate app length].
  - by rewrite Z.add_0_r.
  - rewrite IH, Nat2Z.inj_succ. do 4 f_equal. lia.
Qed.

Lemma length_enumerate {A} start (l : list A) :
  length (enumerate start l) = length l.
Proof.
  revert start. induction l as [|x l IH]; intros start; [done|].
  cbn. by rewrite IH.
Qed.

Lemma lookup_map_Some {A B} (f : A -> B) l i y :
  map f l !! i = Some y -> exists x, l !! i = Some x /\ y = f x.
Proof.
  revert i. induction l as [|x l IH]; intros [|i] H; try discriminate H.
  - injection H as <-. by exists x.
  - by apply IH.
Qed.

Lemma lookup_repeat {A} (x : A) n i : i < n -> repeat x n !! i = Some x.
Proof.
  revert i. induction n as [|n IH]; intros [|i] H; try lia; [done|].
  cbn. apply IH. lia.
Qed.

Lemma in_combine_seq {A} (l : list A) start i p :
  In (i, p) (combine (seq start (length l)) l) ->
  start <= i /\ l !! (i - start) = Some p.
Proof.
  revert start. induction l as [|x l IH]; intros start H; [destruct H|].
  cbn in H. destruct H as [[= <- <-] | H].
  - split; [lia|]. by rewrite Nat.sub_diag.
  - apply IH in H as [Hle Hl]. split; [lia|].
    replace (i - start) with (S (i - S start)) by lia. exact Hl.
Qed.

Lemma map_fst_combine_seq {A} (l : list A) start :
  map fst (combine (seq start (length l)) l) = seq start (length l).
Proof.
  revert start. induction l as [|x l IH]; intros start; [done|].
  cbn. by rewrite IH.
Qed.

Section Pool.
Variable tasks : list (Prog unit).
Variable body : Z * res unit -> M unit.
Variable report : Z * res unit -> event.
Variable w0 : World.

(** The body of the loop over the futures, given the result of a task,
    adds one event and goes on. *)
Hypothesis body_reports : forall i t h r w,
  tasks !! i = Some t -> emits t h r ->
  body (Z.of_nat (S i), r) w
  = (Ok tt, apply_event (report (Z.of_nat (S i), r)) w).

(** What holds of a pool between two actions, [live] being the tasks
    taken up and pending, [evs] the history since the pool was entered
    and [owners] the thread of each of its events: every task not ended
    has left the events that are its own and goes on from there; the
    future of a task that has ended holds its result; the main thread
    has reported the first [next] results, in order. *)
Record pool_inv (wd : World) (live : list (nat * Prog unit))
    (futures : list (option (res unit))) (next : nat)
    (owners : list thread) (evs : list event) : Prop := mk_pool_inv {
  inv_world : wd = apply_events evs w0;
  inv_length : length owners = length evs;
  inv_owners :
    Forall (fun o => match o with
                     | Main => True
                     | Worker i => i < length tasks
                     end) owners;
  inv_futures : length futures = length tasks;
  inv_nodup : List.NoDup (map fst live);
  inv_live : forall i p,
    In (i, p) live ->
    futures !! i = Some None
    /\ exists t, tasks !! i = Some t
         /\ forall h r, emits p h r ->
                        emits t (events_of (Worker i) owners evs ++ h) r;
  inv_done : forall i r,
    futures !! i = Some (Some r) ->
    exists t, tasks !! i = Some t
              /\ emits t (events_of (Worker i) owners evs) r;
  inv_waiting : forall i, futures !! i = Some None -> In i (map fst live);
  inv_main : exists rs,
    length rs = next
    /\ take next futures = map Some rs
    /\ events_of Main owners evs = map report (enumerate 1 rs)
}.

Lemma pool_inv_start :
  pool_inv w0 (combine (seq 0 (length tasks)) tasks)
           (repeat None (length tasks)) 0 [] [].
Proof.
  split; try done.
  - apply repeat_length.
  - rewrite map_fst_combine_seq. apply List.seq_NoDup.
  - intros i p Hin. apply in_combine_seq in Hin as [_ Hp].
    rewrite Nat.sub_0_r in Hp. split.
    + apply lookup_repeat. by apply lookup_lt_Some in Hp.
    + exists p. split; [done|]. by intros h r H.
  - intros i r H. apply lookup_lt_Some in H as Hlt.
    rewrite repeat_length in Hlt. rewrite lookup_repeat in H by done.
    discriminate H.
  - intros i H. apply lookup_lt_Some in H. rewrite repeat_length in H.
    rewrite map_fst_combine_seq. apply in_seq. lia.
  - by exists [].
Qed.

(** A task that has ended leaves the pool, its future set. *)
Lemma pool_retire wd l1 i r l2 futures next owners evs :
  pool_inv wd (l1 ++ (i, Done r) :: l2) futures next owners evs ->
  pool_inv wd (l1 ++ l2) (<[i := Some r]> futures) next owners evs.
Proof.
  intros [Hw Hlen Hown Hfl Hnd Hlive Hdone Hwait Hmain].
  destruct (Hlive i (Done r)) as [Hfi (t & Ht & Hcont)];
    [apply in_or_app; right; by left|].
  assert (Hilt : i < length futures) by (by apply lookup_lt_Some in Hfi).
  rewrite map_app in Hnd. cbn [map fst] in Hnd.
  pose proof (NoDup_remove_1 _ _ _ Hnd) as Hnd1.
  pose proof (NoDup_remove_2 _ _ _ Hnd) as Hnot.
  rewrite <- map_app in Hnd1, Hnot.
  split.
  - exact Hw.
  - exact Hlen.
  - exact Hown.
  - by rewrite length_insert.
  - exact Hnd1.
  - intros j p Hin.
    assert (Hne : i <> j).
    { intros ->. apply Hnot. by apply (in_map fst _ (j, p)). }
    rewrite list_lookup_insert_ne by done. apply Hlive.
    apply in_app_or in Hin as [Hin | Hin]; apply in_or_app;
      [by left | right; by right].
  - intros j r' Hj. destruct (decide (i = j)) as [<- | Hne].
    + rewrite list_lookup_insert_eq in Hj by done. injection Hj as <-.
      exists t. split; [done|].
      specialize (Hcont [] r (emits_done r)). by rewrite app_nil_r in Hcont.
    + rewrite list_lookup_insert_ne in Hj by done. by apply Hdone.
  - intros j Hj. destruct (decide (i = j)) as [<- | Hne].
    + rewrite list_lookup_insert_eq in Hj by done. discriminate Hj.
    + rewrite list_lookup_insert_ne in Hj by done. apply Hwait in Hj.
      rewrite map_app in Hj |- *. cbn [map fst] in Hj.
      apply in_app_or in Hj as [Hj | [Hj | Hj]]; apply in_or_app;
        [by left | contradiction | by right].
  - destruct Hmain as (rs & Hrs & Htake & Hev). exists rs.
    split; [done|]. split; [|done].
    rewrite take_insert_ge; [done|].
    destruct (decide (next <= i)) as [|Hlt]; [done|]. exfalso.
    assert (Hl : take next futures !! i = Some None)
      by (rewrite lookup_take_lt by lia; done).
    rewrite Htake in Hl. by apply lookup_map_Some in Hl as (x & _ & [=]).
Qed.

(** A task acts: the events are its own. *)
Lemma pool_advance wd l1 i p l2 futures next owners evs p' h' :
  pool_inv wd (l1 ++ (i, p) :: l2) futures next owners evs ->
  (forall h r, emits p' h r -> emits p (h' ++ h) r) ->
  pool_inv (apply_events h' wd) (l1 ++ (i, p') :: l2) futures next
           (owners ++ repeat (Worker i) (length h')) (evs ++ h').
Proof.
  intros [Hw Hlen Hown Hfl Hnd Hlive Hdone Hwait Hmain] Hp.
  destruct (Hlive i p) as [Hfi (t & Ht & Hcont)];
    [apply in_or_app; right; by left|].
  assert (Hfst : map fst (l1 ++ (i, p') :: l2) = map fst (l1 ++ (i, p) :: l2))
    by (by rewrite !map_app).
  pose proof Hnd as Hnd'. rewrite map_app in Hnd'. cbn [map fst] in Hnd'.
  pose proof (NoDup_remove_2 _ _ _ Hnd') as Hnot.
  rewrite <- map_app in Hnot.
  split.
  - rewrite Hw. symmetry. apply apply_events_app.
  - rewrite !length_app, repeat_length. lia.
  - apply Forall_app. split; [done|]. apply Forall_forall. intros o Ho.
    apply list_elem_of_In, repeat_spec in Ho as ->.
    by apply lookup_lt_Some in Ht.
  - exact Hfl.
  - by rewrite Hfst.
  - intros j q Hin. rewrite events_of_by by done. cbn [same_thread].
    assert (Hcase : (j, q) = (i, p') \/ In (j, q) (l1 ++ l2)).
    { apply in_app_or in Hin as [Hin | [Hin | Hin]];
        [right; apply in_or_app; by left | by left
        | right; apply in_or_app; by right]. }
    destruct Hcase as [[= -> ->] | Hin'].
    + rewrite Nat.eqb_refl. split; [done|]. exists t. split; [done|].
      intros h r He. rewrite <- app_assoc. apply Hcont, Hp, He.
    + assert (Hne : i <> j).
      { intros ->. apply Hnot. by apply (in_map fst _ (j, q)). }
      apply Nat.eqb_neq in Hne. rewrite Hne, app_nil_r. apply Hlive.
      apply in_app_or in Hin' as [Hin' | Hin']; apply in_or_app;
        [by left | right; by right].
  - intros j r Hj. destruct (Hdone j r Hj) as (t' & Ht' & He).
    exists t'. split; [done|]. rewrite events_of_by by done.
    cbn [same_thread].
    assert (Hne : i <> j) by (intros ->; congruence).
    apply Nat.eqb_neq in Hne. by rewrite Hne, app_nil_r.
  - intros j Hj. rewrite Hfst. by apply Hwait.
  - destruct Hmain as (rs & Hrs & Htake & Hev). exists rs.
    split; [done|]. split; [done|].
    rewrite events_of_by by done. cbn [same_thread]. by rewrite app_nil_r.
Qed.

(** The main thread reports the result it was waiting for. *)
Lemma pool_report wd live futures next owners evs r :
  pool_inv wd live futures next owners evs ->
  futures !! next = Some (Some r) ->
  pool_inv (apply_event (report (Z.of_nat (S next), r)) wd) live futures
           (S next) (owners ++ [Main])
           (evs ++ [report (Z.of_nat (S next), r)]).
Proof.
  intros [Hw Hlen Hown Hfl Hnd Hlive Hdone Hwait Hmain] Hnext.
  assert (Hev : forall t,
             events_of t (owners ++ [Main])
                         (evs ++ [report (Z.of_nat (S next), r)])
             = events_of t owners evs
               ++ (if same_thread Main t
                   then [report (Z.of_nat (S next), r)] else [])).
  { intros t.
    apply (events_of_by t Main owners evs [report (Z.of_nat (S next), r)]).
    exact Hlen. }
  split.
  - rewrite Hw. symmetry.
    apply (apply_events_app evs [report (Z.of_nat (S next), r)]).
  - rewrite !length_app. cbn. lia.
  - apply Forall_app. split; [done|]. by repeat constructor.
  - exact Hfl.
  - exact Hnd.
  - intros j q Hin. rewrite Hev. cbn [same_thread]. rewrite app_nil_r.
    by apply Hlive.
  - intros j r' Hj. rewrite Hev. cbn [same_thread]. rewrite app_nil_r.
    by apply Hdone.
  - exact Hwait.
  - destruct Hmain as (rs & Hrs & Htake & Hmain). exists (rs ++ [r]).
    split; [rewrite length_app; cbn; lia|]. split.
    + rewrite (take_S_r _ _ _ Hnext), Htake, map_app. reflexivity.
    + rewrite Hev, Hmain. cbn [same_thread].
      rewrite enumerate_snoc, map_app, Hrs. cbn [map].
      do 4 f_equal. lia.
Qed.

Lemma take_up_inv max_workers wd pending :
  forall running futures next owners evs,
    pool_inv wd (running ++ pending) futures next owners evs ->
    pool_inv wd
      ((take_up max_workers running futures pending).1.1
       ++ (take_up max_workers running futures pending).2)
      (take_up max_workers running futures pending).1.2 next owners evs.
Proof.
  induction pending as [|[i p] rest IH]; intros running futures next owners
    evs H; cbn [take_up].
  - exact H.
  - destruct (length running <? max_workers); [|exact H].
    destruct p as [r|ev nx].
    + apply IH. by apply pool_retire in H.
    + apply IH. by rewrite <- app_assoc.
Qed.

(** The state of a pool whose loop has not raised. *)
Definition pool_ok (s : Pool) (owners : list thread) (evs : list event)
    : Prop :=
  pool_raised s = None
  /\ pool_inv (pool_world s) (pool_running s ++ pool_pending s)
              (pool_futures s) (pool_next s) owners evs.

Lemma settle_ok max_workers s owners evs :
  pool_ok s owners evs -> pool_ok (settle max_workers s) owners evs.
Proof.
  intros [Hr Hi]. unfold settle.
  pose proof (take_up_inv max_workers _ _ _ _ _ _ _ Hi) as H.
  destruct (take_up max_workers (pool_running s) (pool_futures s)
              (pool_pending s)) as [[running futures] pending].
  by split.
Qed.

Lemma step_worker_ok max_workers j s owners evs :
  pool_ok s owners evs ->
  exists owners' evs', pool_ok (step_worker max_workers j s) owners' evs'.
Proof.
  intros [Hr Hi]. unfold step_worker.
  destruct (pool_running s !! j) as [[i [r|ev nx]]|] eqn:Ej;
    [by exists owners, evs | | by exists owners, evs].
  pose proof (take_drop_middle _ _ _ Ej) as Hsplit.
  rewrite <- Hsplit, <- app_assoc, <- app_comm_cons in Hi.
  apply (pool_advance _ _ _ _ _ _ _ _ _ (nx (pool_world s))
           [ev (pool_world s)]) in Hi; [|by intros h r He; constructor].
  change (apply_events [ev (pool_world s)] (pool_world s))
    with (apply_event (ev (pool_world s)) (pool_world s)) in Hi.
  destruct (nx (pool_world s)) as [r|ev' nx'] eqn:Enx.
  - apply pool_retire in Hi. eexists _, _. apply settle_ok.
    split; [exact Hr|]. cbn [pool_world pool_running pool_pending
                             pool_futures pool_next].
    by rewrite delete_take_drop, <- app_assoc.
  - eexists _, _. split; [exact Hr|].
    cbn [pool_world pool_running pool_pending pool_futures pool_next].
    rewrite insert_take_drop by (by apply lookup_lt_Some in Ej).
    by rewrite <- app_assoc, <- app_comm_cons.
Qed.

Lemma main_ready_Some s r :
  main_ready s = Some r ->
  pool_raised s = None /\ pool_futures s !! pool_next s = Some (Some r).
Proof.
  unfold main_ready. destruct (pool_raised s); [discriminate|].
  destruct (pool_futures s !! pool_next s) as [[r'|]|]; cbn; by intros [= ->].
Qed.

Lemma step_main_ok s r owners evs :
  pool_ok s owners evs -> main_ready s = Some r ->
  exists owners' evs', pool_ok (step_main body r s) owners' evs'.
Proof.
  intros [Hr Hi] Hready. apply main_ready_Some in Hready as [_ Hnext].
  destruct (inv_done _ _ _ _ _ _ Hi _ _ Hnext) as (t & Ht & He).
  unfold step_main. rewrite (body_reports _ _ _ _ _ Ht He).
  eexists _, _. split; [exact Hr|].
  cbn [pool_world pool_running pool_pending pool_futures pool_next].
  by apply pool_report.
Qed.

Lemma pool_step_ok max_workers choice s owners evs :
  pool_ok s owners evs ->
  exists owners' evs',
    pool_ok (pool_step max_workers body choice s) owners' evs'.
Proof.
  intros Hok. unfold pool_step.
  destruct (main_ready s) as [r|] eqn:Eready.
  - destruct (_ <? _);
      [by apply (step_worker_ok _ _ _ owners evs)
      | by apply (step_main_ok _ _ owners evs)].
  - destruct (length (pool_running s)); [by exists owners, evs|].
    by apply (step_worker_ok _ _ _ owners evs).
Qed.

Lemma finish_tasks_inv next live :
  forall wd futures owners evs,
    pool_inv wd live futures next owners evs ->
    exists owners' evs',
      pool_inv (finish_tasks live wd futures).1 []
               (finish_tasks live wd futures).2 next owners' evs'.
Proof.
  induction live as [|[i p] rest IH]; intros wd futures owners evs H.
  - by exists owners, evs.
  - cbn [finish_tasks].
    destruct (run_prog_emits p wd) as (h & He & Hw).
    destruct (run_prog p wd) as [r w']. cbn [fst snd] in He, Hw. subst w'.
    apply (pool_advance _ [] _ _ _ _ _ _ _ (Done r) h) in H.
    2:{ intros h2 r2 H2. apply emits_done_inv in H2 as [-> ->].
        by rewrite app_nil_r. }
    apply (pool_retire _ []) in H. cbn [app] in H.
    by apply IH in H.
Qed.

Lemma finish_main_inv futures k :
  forall next wd owners evs,
    length tasks - next = k ->
    pool_inv wd [] futures next owners evs ->
    exists owners' evs' w2,
      finish_main body (drop next futures) next wd = (length tasks, None, w2)
      /\ pool_inv w2 [] futures (length tasks) owners' evs'.
Proof.
  induction k as [|k IH]; intros next wd owners evs Hk H.
  - assert (Hle : next <= length tasks).
    { destruct (inv_main _ _ _ _ _ _ H) as (rs & Hrs & Htake & _).
      apply (f_equal length) in Htake.
      rewrite length_take, length_map, Hrs, (inv_futures _ _ _ _ _ _ H)
        in Htake. lia. }
    assert (next = length tasks) as -> by lia.
    rewrite drop_ge by (by rewrite (inv_futures _ _ _ _ _ _ H)).
    by exists owners, evs, wd.
  - assert (Hlt : next < length futures)
      by (rewrite (inv_futures _ _ _ _ _ _ H); lia).
    apply lookup_lt_is_Some in Hlt as [[r|] Hnext].
    2:{ apply (inv_waiting _ _ _ _ _ _ H) in Hnext. destruct Hnext. }
    rewrite (drop_S _ _ _ Hnext). cbn [finish_main].
    destruct (inv_done _ _ _ _ _ _ H _ _ Hnext) as (t & Ht & He).
    rewrite (body_reports _ _ _ _ _ Ht He).
    eapply (IH (S next)); [lia|]. by apply pool_report.
Qed.

Lemma drain_ok s owners evs :
  pool_ok s owners evs ->
  exists owners' evs',
    pool_raised (drain body s) = None
    /\ pool_inv (pool_world (drain body s)) [] (pool_futures (drain body s))
                (length tasks) owners' evs'.
Proof.
  intros [Hr Hi]. unfold drain. rewrite Hr.
  destruct (finish_tasks_inv _ _ _ _ _ _ Hi) as (owners1 & evs1 & H1).
  destruct (finish_tasks _ _ _) as [w1 futures]. cbn [fst snd] in H1.
  destruct (finish_main_inv futures _ _ _ _ _ eq_refl H1)
    as (owners2 & evs2 & w2 & -> & H2).
  by exists owners2, evs2.
Qed.

Lemma pool_run_ok max_workers choices :
  forall s owners evs,
    pool_ok s owners evs ->
    exists owners' evs',
      pool_raised (pool_run max_workers body choices s) = None
      /\ pool_inv (pool_world (pool_run max_workers body choices s)) []
                  (pool_futures (pool_run max_workers body choices s))
                  (length tasks) owners' evs'.
Proof.
  induction choices as [|c choices IH]; intros s owners evs Hok;
    cbn [pool_run].
  - by eapply drain_ok.
  - destruct (pool_step_ok max_workers c _ _ _ Hok) as (owners' & evs' & H).
    by eapply IH.
Qed.

End Pool.

(** The pool under every schedule.  Whatever the order in which the
    threads act, the block ends normally, and its history [evs] divides
    among the threads so that the events of each task are a history that
    task can leave, ending with the result [rs] has for it, and the
    events of the main thread are the reports of these results, in the
    order of submission. *)
Theorem with_thread_pool_run os max_workers tasks body report w :
  (forall i t h r w',
      tasks !! i = Some t -> emits t h r ->
      body (Z.of_nat (S i), r) w'
      = (Ok tt, apply_event (report (Z.of_nat (S i), r)) w')) ->
  exists owners evs rs,
    with_thread_pool os max_workers tasks body w = (Ok tt, apply_events evs w)
    /\ length owners = length evs
    /\ Forall (fun o => match o with
                        | Main => True
                        | Worker i => i < length tasks
                        end) owners
    /\ length rs = length tasks
    /\ events_of Main owners evs = map report (enumerate 1 rs)
    /\ forall i t, tasks !! i = Some t ->
         exists r, rs !! i = Some r
                   /\ emits t (events_of (Worker i) owners evs) r.
Proof.
  intros Hbody. unfold with_thread_pool. cbv zeta.
  set (s0 := settle max_workers _).
  assert (H0 : pool_ok tasks report w s0 [] []).
  { apply settle_ok. split; [done|]. cbn [pool_world pool_running
      pool_pending pool_futures pool_next]. apply pool_inv_start. }
  destruct (pool_run_ok tasks body report w Hbody max_workers (schedule os)
              _ _ _ H0) as (owners & evs & Hr & Hi).
  set (s := pool_run max_workers body (schedule os) s0) in *.
  destruct Hi as [Hw Hlen Hown Hfl _ _ Hdone _ (rs & Hrs & Htake & Hmain)].
  rewrite take_ge in Htake by lia.
  exists owners, evs, rs. rewrite Hr, Hw.
  split; [done|]. split; [done|]. split; [done|]. split; [done|].
  split; [done|].
  intros i t Ht.
  assert (Hlt : i < length rs) by (rewrite Hrs; by apply lookup_lt_Some in Ht).
  apply lookup_lt_is_Some in Hlt as [r Hr'].
  exists r. split; [done|].
  destruct (Hdone i r) as (t' & Ht' & He).
  { rewrite Htake. clear -Hr'. revert i Hr'.
    induction rs as [|x rs IH]; intros [|i] H; try discriminate H.
    - by injection H as ->.
    - by apply IH. }
  by rewrite Ht in Ht'; injection Ht' as <-.
Qed.

End PoolRuns.

(* ===================================================================== *)
(** ** The fetch orchestrator                                             *)
(* ===================================================================== *)

Module Orchestrator.
Import PyStr PyPath Eff Downloader Runs Threads PoolRuns SceneFetch Resolver.
Local Open Scope list_scope.
Local Open Scope Z_scope.

(** The line the orchestrator prints for one future. *)
Definition report_event (total : nat) (entry : Z * res unit) : event :=
  match entry.2 with
  | Ok _ =>
      Print ("[" +:+ str_of_Z entry.1 +:+ "/" +:+ str_of_Z (Z.of_nat total)
             +:+ "] Scene completed successfully!")
  | Raise e =>
      Print ("[" +:+ str_of_Z entry.1 +:+ "/" +:+ str_of_Z (Z.of_nat total)
             +:+ "] Scene failed. Error: " +:+ exn_str e)
  end.

(** A scene fetch ends well, or with the error of a failed copy or of a
    category directory that could not be ensured. *)
Definition task_result (r : res unit) : Prop :=
  r = Ok tt \/ exists e, r = Raise e /\ is_fetch_error e = true.

(** The lines printed before and after the pool. *)
Definition opening (scene_ids : list Z) (target : Path) : list event :=
  [ Print ("Downloading training data for "
           +:+ str_of_Z (Z.of_nat (length scene_ids)) +:+ " scenes...");
    Print ("Target directory: " +:+ to_str target) ].

Definition closing (target : Path) : list event :=
  [ Print (nl +:+ check_mark +:+ " All training data download completed!");
    Print ("Training data location: " +:+ to_str target);
    Print (nl +:+ "Downloaded files:") ].

(** The depth the listing gives a directory, and its lines. *)
Definition entry_level (target : Path) (root : string) : nat :=
  count_char "/" (replace root (to_str target) "").

Definition entry_events (target : Path)
    (entry : string * list string * list string) : list event :=
  let '(root, _, files) := entry in
  Print (repeat_str "  " (entry_level target root) +:+ basename root +:+ "/")
  :: map (fun file =>
            Print (repeat_str "  " (entry_level target root + 1) +:+ file))
         files.

Lemma for_each_print {A} (f : A -> string) (l : list A) w :
  for_each l (fun x => print (f x)) w
  = (Ok tt, extend w (map (fun x => Print (f x)) l)).
Proof.
  revert w. induction l as [|x l IH]; intros w.
  - cbn. by rewrite extend_nil.
  - cbn [for_each map]. unfold bind. rewrite print_run, IH, extend_extend.
    reflexivity.
Qed.

Lemma list_entry_run target entry w :
  list_entry target entry w = (Ok tt, extend w (entry_events target entry)).
Proof.
  destruct entry as [[root dirnames] files].
  unfold list_entry, entry_events, entry_level. unfold bind.
  rewrite print_run, for_each_print, extend_extend. reflexivity.
Qed.

Lemma listing_run target entries w :
  for_each entries (list_entry target) w
  = (Ok tt, extend w (concat (map (entry_events target) entries))).
Proof.
  revert w. induction entries as [|entry entries IH]; intros w.
  - cbn. by rewrite extend_nil.
  - cbn [for_each map concat]. unfold bind.
    rewrite list_entry_run, IH, extend_extend. reflexivity.
Qed.

Lemma listing_prints target entries :
  forallb is_print (concat (map (entry_events target) entries)) = true.
Proof.
  induction entries as [|[[root dirnames] files] entries IH]; [reflexivity|].
  cbn [map concat]. rewrite forallb_app, IH, andb_true_r.
  unfold entry_events. cbn [forallb is_print]. apply forallb_forall.
  intros e He. apply in_map_iff in He as (file & <- & _). reflexivity.
Qed.

Lemma reports_print total entries :
  forallb is_print (map (report_event total) entries) = true.
Proof.
  apply forallb_forall. intros e He.
  apply in_map_iff in He as ([counter r] & <- & _).
  unfold report_event. cbn [snd]. by destruct r.
Qed.

Lemma zip_fst_snd {A B} (l : list (A * B)) :
  zip (map fst l) (map snd l) = l.
Proof. induction l as [|[a b] l IH]; [reflexivity|]. cbn. by rewrite IH. Qed.

Lemma length_zip {A B} (a : list A) (b : list B) :
  length a = length b -> length (zip a b) = length a.
Proof.
  revert b. induction a as [|x a IH]; intros [|y b] E;
    try discriminate; [reflexivity|].
  cbn. f_equal. apply IH. by injection E.
Qed.

Section Facts.
Variable os : OS.

(** The body of the loop over the futures, on the result of a scene
    fetch: one line, and the loop goes on. *)
Lemma report_future_run total counter r w :
  task_result r ->
  report_future total (counter, r) w
  = (Ok tt, apply_event (report_event total (counter, r)) w).
Proof.
  intros [-> | (e & -> & He)]; [reflexivity|].
  unfold report_future, try_except, future_result, lift, bind,
    report_event. cbn [fst snd].
  by destruct e.
Qed.

(** What each task of the pool leaves, whatever the other threads do. *)
Definition scene_history (target : Path) (task : Z * string)
    (h : list event) (r : res unit) : Prop :=
  emits (download_scene_data_steps os task.1 target task.2) h r.

Lemma scene_history_result target task h r :
  scene_history target task h r -> task_result r.
Proof.
  intros H. apply download_scene_data_emits in H as [(_ & _ & _ & H & _) _].
  exact H.
Qed.

(** The pool under every schedule: it returns normally; its history
    divides among the threads, each task owning a history of its scene
    fetch that ends with the result its future holds, the main thread
    owning the report lines, one per future, in submission order. *)
Lemma run_pool_run scene_ids target file_names w :
  let tasks := zip scene_ids file_names in
  exists owners evs futures,
    run_pool os scene_ids target file_names w = (Ok tt, apply_events evs w)
    /\ length owners = length evs
    /\ Forall (fun o => match o with
                        | Main => True
                        | Worker i => (i < length tasks)%nat
                        end) owners
    /\ length futures = length tasks
    /\ events_of Main owners evs
       = map (report_event (length scene_ids)) (enumerate 1 futures)
    /\ forall i task,
         tasks !! i = Some task ->
         exists r, futures !! i = Some r
                   /\ scene_history target task
                        (events_of (Worker i) owners evs) r.
Proof.
  cbv zeta. unfold run_pool.
  set (code := fun '(scene_id, filename) =>
                 download_scene_data_steps os scene_id target filename).
  destruct (with_thread_pool_run os 5 (map code (zip scene_ids file_names))
              (report_future (length scene_ids))
              (report_event (length scene_ids)) w)
    as (owners & evs & rs & Hrun & Hlen & Hown & Hrs & Hmain & Htasks).
  { intros i t h r w' Ht He. apply report_future_run.
    apply lookup_map_Some in Ht as ([scene_id filename] & _ & ->).
    by apply (scene_history_result target (scene_id, filename) h). }
  rewrite length_map in Hown, Hrs.
  exists owners, evs, rs. repeat (split; [done|]).
  intros i [scene_id filename] Hi.
  apply (Htasks i (code (scene_id, filename))).
  clear -Hi. revert i Hi.
  induction (zip scene_ids file_names) as [|x l IH]; intros [|i] H;
    try discriminate H.
  - by injection H as ->.
  - by apply IH.
Qed.

(** The orchestrator once the target directory is ensured and the file
    names are resolved: two lines, the pool, three lines and the
    listing. *)
Lemma download_training_data_run scene_ids target_dir index_path names w :
  mkdir_error os (parse target_dir) = None ->
  (forall w0, resolve_file_names os scene_ids index_path w0 = (Ok names, w0)) ->
  let target := parse target_dir in
  let w1 := extend (apply_event (Mkdir target) w) (opening scene_ids target) in
  let pool := run_pool os scene_ids target names w1 in
  pool.1 = Ok tt ->
  download_training_data os scene_ids target_dir index_path w
  = (Ok tt,
     extend pool.2
       (closing target
        ++ concat (map (entry_events target)
                       (walk os (trace pool.2 ++ closing target)
                             (to_str target))))).
Proof.
  intros Hmk Hres. cbv zeta. intros Hpool.
  unfold download_training_data. unfold bind at 1.
  unfold mkdir at 1. rewrite Hmk.
  unfold bind at 1. rewrite Hres.
  unfold bind at 1. rewrite print_run.
  unfold bind at 1. rewrite print_run. rewrite extend_extend. cbn [app].
  unfold bind at 1. fold (opening scene_ids (parse target_dir)).
  destruct (run_pool os scene_ids (parse target_dir) names _) as [r w2].
  cbn [fst snd] in *. subst r.
  unfold bind at 1. rewrite print_run.
  unfold bind at 1. rewrite print_run.
  unfold bind at 1. rewrite print_run.
  rewrite !extend_extend. cbn [app].
  unfold bind at 1. unfold get_trace at 1.
  rewrite listing_run, extend_extend. reflexivity.
Qed.

End Facts.

(** C2. Whatever the order in which the threads of the pool act, the
    block under the pool returns normally, and its history divides among
    the threads as follows. Each scene has a thread of its own, whose
    events are a history of that scene's fetch, starting with its header
    and its primary copy request: every scene is attempted. The fetch
    ends with the result its future holds, normally or with the error of
    a failed copy or of a directory that could not be ensured. The main
    thread has printed one report line per scene, in submission order,
    success or failure as the future says, and nothing else: a failure is
    caught and reported, and the number of report lines is the number of
    scenes. The whole orchestrator behaves so whenever the index file is
    in place, every index is one Python accepts and the target directory
    can be ensured. *)
Theorem C2_every_scene_attempted_and_reported os target tasks w :
  let scene_ids := map fst tasks in
  let file_names := map snd tasks in
  let n := length tasks in
  (exists owners evs futures,
     run_pool os scene_ids target file_names w = (Ok tt, apply_events evs w)
     /\ trace (apply_events evs w) = trace w ++ evs
     /\ length owners = length evs
     /\ Forall (fun o => match o with
                         | Main => True
                         | Worker i => (i < n)%nat
                         end) owners
     /\ length futures = n
     /\ Forall task_result futures
     /\ events_of Main owners evs = map (report_event n) (enumerate 1 futures)
     /\ length (events_of Main owners evs) = n
     /\ (forall i scene_id filename,
           tasks !! i = Some (scene_id, filename) ->
           exists r rc err rest,
             futures !! i = Some r
             /\ emits (download_scene_data_steps os scene_id target filename)
                      (events_of (Worker i) owners evs) r
             /\ events_of (Worker i) owners evs
                = scene_header scene_id
                  :: run_command_events (primary_command target filename)
                       (primary_description filename) rc err ++ rest
             /\ (is_ok r = true ->
                 all_succeeded (events_of (Worker i) owners evs) = true)))
  /\ (forall target_dir index_path content ids,
        files os index_path = Some content ->
        (forall i, In i ids ->
                   - Z.of_nat (length (readlines content)) <= i
                   < Z.of_nat (length (readlines content))) ->
        mkdir_error os (parse target_dir) = None ->
        exists owners evs futures listing,
          (download_training_data os ids target_dir index_path w).1 = Ok tt
          /\ trace (download_training_data os ids target_dir index_path w).2
             = trace w ++ Mkdir (parse target_dir)
               :: opening ids (parse target_dir) ++ evs
               ++ closing (parse target_dir) ++ listing
          /\ length owners = length evs
          /\ events_of Main owners evs
             = map (report_event (length ids)) (enumerate 1 futures)
          /\ length futures = length ids
          /\ Forall task_result futures
          /\ forallb is_print listing = true).
Proof.
  cbv zeta.
  assert (Hpool : forall ids target' names w',
    exists owners evs futures,
      run_pool os ids target' names w' = (Ok tt, apply_events evs w')
      /\ length owners = length evs
      /\ Forall (fun o => match o with
                          | Main => True
                          | Worker i => (i < length (zip ids names))%nat
                          end) owners
      /\ length futures = length (zip ids names)
      /\ Forall task_result futures
      /\ events_of Main owners evs
         = map (report_event (length ids)) (enumerate 1 futures)
      /\ forall i task,
           zip ids names !! i = Some task ->
           exists r, futures !! i = Some r
                     /\ scene_history os target' task
                          (events_of (Worker i) owners evs) r).
  { intros ids target' names w'.
    destruct (run_pool_run os ids target' names w')
      as (owners & evs & futures & Hrun & Hlen & Hown & Hfut & Hmain & Htasks).
    exists owners, evs, futures. repeat (split; [done|]).
    split; [|split; [done|done]].
    apply Forall_lookup. intros i r Hr.
    assert (Hlt : (i < length (zip ids names))%nat)
      by (rewrite <- Hfut; by apply lookup_lt_Some in Hr).
    apply lookup_lt_is_Some in Hlt as [task Htask].
    destruct (Htasks i task Htask) as (r' & Hr' & Hh).
    rewrite Hr in Hr'. injection Hr' as <-.
    by apply (scene_history_result os target' task _ _ Hh). }
  split.
  - destruct (Hpool (map fst tasks) target (map snd tasks) w)
      as (owners & evs & futures & Hrun & Hlen & Hown & Hfut & Hres & Hmain
          & Htasks).
    rewrite zip_fst_snd in Hown, Hfut, Htasks. rewrite length_map in Hmain.
    exists owners, evs, futures.
    split; [exact Hrun|]. split; [apply trace_apply_events|].
    split; [exact Hlen|]. split; [exact Hown|]. split; [exact Hfut|].
    split; [exact Hres|]. split; [exact Hmain|].
    split; [by rewrite Hmain, length_map, length_enumerate|].
    intros i scene_id filename Hi.
    destruct (Htasks i _ Hi) as (r & Hr & Hh).
    pose proof Hh as Hh'. unfold scene_history in Hh'. cbn [fst snd] in Hh'.
    apply download_scene_data_emits in Hh'
      as [(_ & Hok & _) (rc & err & rest & Hev)].
    by exists r, rc, err, rest.
  - intros target_dir index_path content ids Hf Hin Hmk.
    set (names := map (fun i => strip (nth (position (length (readlines content)) i)
                                           (readlines content) "")) ids).
    assert (Hnames : forall w0,
               resolve_file_names os ids index_path w0 = (Ok names, w0)).
    { intros w0. rewrite (resolve_file_names_run os _ _ content) by exact Hf.
      f_equal. apply traverse_ok. intros i Hi. unfold file_name_at.
      by rewrite (getitem_in_range _ "") by (apply Hin, Hi). }
    pose proof (download_training_data_run os ids target_dir index_path names w
                  Hmk Hnames) as Hrun.
    cbv zeta in Hrun.
    set (w1 := extend (apply_event (Mkdir (parse target_dir)) w) _) in Hrun.
    destruct (Hpool ids (parse target_dir) names w1)
      as (owners & evs & futures & Hp & Hlen & _ & Hfut & Hres & Hmain & _).
    rewrite Hp in Hrun. cbn [fst snd] in Hrun. rewrite (Hrun eq_refl).
    exists owners, evs, futures. eexists. cbn [fst snd].
    split; [reflexivity|]. split; [|split; [exact Hlen|]].
    { rewrite trace_extend, !trace_apply_events. subst w1.
      cbn [trace extend apply_event]. rewrite <- !app_assoc. reflexivity. }
    split; [exact Hmain|]. split.
    { rewrite Hfut. apply length_zip. subst names. by rewrite length_map. }
    split; [exact Hres | apply listing_prints].
Qed.

(** Three scenes, the copy of the second one's primary file failing, the
    threads taking turns: three report lines in submission order, the
    second a failure, and the second scene's header printed before the
    first scene has ended. *)
Definition flaky_os : OS :=
  mkOS (fun _ => None)
       (fun _ cmd => if String.eqb cmd (primary_command (parse "out") "bad")
                     then (1, "no such object") else (0, ""))
       (fun _ _ => [])
       [1; 1; 0; 3; 2; 7; 4; 0; 2; 5; 1; 1; 0; 3; 1; 0; 2; 2; 9; 4]%nat.

Definition is_report (e : event) : bool :=
  match e with
  | Print line => String.prefix "[" line
  | _ => false
  end.

Example one_failure_among_three :
  let run := run_pool flaky_os [4; 5; 6] (parse "out")
               [ "segment-a_with_camera_labels"; "bad";
                 "segment-c_with_camera_labels" ] empty_world in
  run.1 = Ok tt
  /\ List.filter is_report (trace run.2)
     = [ Print "[1/3] Scene completed successfully!";
         Print "[2/3] Scene failed. Error: Command failed: no such object";
         Print "[3/3] Scene completed successfully!" ]
  /\ take 3 (trace run.2)
     = [ scene_header 5; Print "Running: Downloading tfrecord file: bad.tfrecord";
         scene_header 4 ].
Proof. vm_compute. repeat split. Qed.

Lemma self_in_self_and_parents p :
  parts p <> [] -> In p (self_and_parents p).
Proof.
  intros Hne. unfold self_and_parents. apply in_map_iff.
  exists (length (parts p)). split.
  - rewrite firstn_all. by destruct p.
  - apply in_seq. destruct (parts p); [done | cbn; lia].
Qed.






End Orchestrator.


(* ===================================================================== *)
(** ** The secondary id of a file name                                    *)
(* ===================================================================== *)

Module SegmentId.
Import PyStr PyPath Eff Downloader Runs SceneFetch SplitFile.
Local Open Scope nat_scope.

(** [sub in s]. *)
Fixpoint contains (s sub : string) : bool :=
  String.prefix sub s
  || match s with
     | "" => false
     | String _ s' => contains s' sub
     end.

(** [s[n:]]. *)
Fixpoint string_drop (n : nat) (s : string) : string :=
  match n, s with
  | O, _ => s
  | S k, String _ s' => string_drop k s'
  | S _, "" => ""
  end.

(** No occurrence of [old] can begin before [s2] and end inside it: no
    proper, non-empty tail of [old] starts [s2]. *)
Definition straddle_free (old s2 : string) : bool :=
  forallb (fun k => negb (String.prefix (string_drop k old) s2))
          (seq 1 (String.length old - 1)).

Lemma prefix_cons a s1 b s2 :
  String.prefix (String a s1) (String b s2)
  = if ascii_dec a b then String.prefix s1 s2 else false.
Proof. reflexivity. Qed.

Lemma prefix_app_self old rest : String.prefix old (old +:+ rest) = true.
Proof.
  induction old as [|c old IH]; [by destruct rest|].
  rewrite append_cons, prefix_cons. by destruct (ascii_dec c c).
Qed.

(** An occurrence at the start of [t +:+ s2] lies within [t] or
    straddles the seam. *)
Lemma prefix_app_cases old t s2 :
  String.prefix old (t +:+ s2) = true ->
  String.prefix old t = true
  \/ (String.length t < String.length old
      /\ String.prefix (string_drop (String.length t) old) s2 = true).
Proof.
  revert old. induction t as [|c t IH]; intros old H.
  - destruct old as [|d old]; [by left|]. right. split; [cbn; lia | exact H].
  - destruct old as [|d old]; [by left|].
    rewrite append_cons, prefix_cons in H. rewrite prefix_cons.
    destruct (ascii_dec d c); [|discriminate].
    destruct (IH old H) as [Hl | [Hlen Hr]]; [by left|].
    right. split; [cbn; lia | exact Hr].
Qed.

Lemma no_prefix_across old t s2 :
  t <> "" -> String.prefix old t = false -> straddle_free old s2 = true ->
  String.prefix old (t +:+ s2) = false.
Proof.
  intros Hne Ht Hfree.
  destruct (String.prefix old (t +:+ s2)) eqn:E; [|reflexivity].
  destruct (prefix_app_cases old t s2 E) as [Hl | [Hlen Hr]]; [congruence|].
  unfold straddle_free in Hfree. rewrite forallb_forall in Hfree.
  assert (Hin : In (String.length t) (seq 1 (String.length old - 1))).
  { apply in_seq. destruct t; [done | cbn in *; lia]. }
  apply Hfree in Hin. rewrite Hr in Hin. discriminate Hin.
Qed.

(** Where [old] does not occur, [replace] copies. *)
Lemma replace_from_app_clean old new s1 s2 :
  contains s1 old = false -> straddle_free old s2 = true ->
  replace_from old new 0 (s1 +:+ s2) = s1 +:+ replace_from old new 0 s2.
Proof.
  intros Hc Hfree. induction s1 as [|c s1 IH]; [reflexivity|].
  cbn [contains] in Hc. apply orb_false_iff in Hc as [Hp Hc].
  rewrite !append_cons. cbn [replace_from].
  rewrite <- append_cons.
  rewrite (no_prefix_across old (String c s1) s2) by done.
  by rewrite IH.
Qed.

Lemma replace_from_skip old new s1 s2 :
  replace_from old new (String.length s1) (s1 +:+ s2)
  = replace_from old new 0 s2.
Proof.
  induction s1 as [|c s1 IH]; [by destruct s2|].
  rewrite append_cons. cbn [String.length replace_from]. exact IH.
Qed.

(** At an occurrence, [replace] writes [new] and goes on behind it. *)
Lemma replace_from_at_occurrence old new rest :
  old <> "" ->
  replace_from old new 0 (old +:+ rest)
  = new +:+ replace_from old new 0 rest.
Proof.
  intros Hne. destruct old as [|c old]; [done|].
  rewrite append_cons. cbn [replace_from]. rewrite <- append_cons.
  rewrite prefix_app_self.
  replace (String.length (String c old) - 1) with (String.length old)
    by (cbn [String.length]; lia).
  by rewrite replace_from_skip.
Qed.

Lemma substring_all p : substring 0 (String.length p) p = p.
Proof. induction p as [|c p IH]; [reflexivity|]. cbn. by rewrite IH. Qed.

Lemma substring_app_suffix x p :
  substring (String.length x) (String.length p) (x +:+ p) = p.
Proof.
  induction x as [|c x IH]; [apply substring_all|].
  rewrite append_cons. cbn [String.length substring]. exact IH.
Qed.

Lemma length_append (a b : string) :
  String.length (a +:+ b) = String.length a + String.length b.
Proof.
  induction a as [|c a IH]; [reflexivity|].
  rewrite append_cons. cbn [String.length]. by rewrite IH.
Qed.

Lemma endswith_app x p : endswith (x +:+ p) p = true.
Proof.
  unfold endswith. rewrite length_append.
  replace (String.length x + String.length p - String.length p)
    with (String.length x) by lia.
  rewrite substring_app_suffix, String.eqb_refl.
  rewrite andb_true_r. apply Nat.leb_le. lia.
Qed.

(** A name made of the two markers around an id has the expected form. *)
Lemma matches_pattern_markers id :
  matches_pattern ("segment-" +:+ id +:+ "_with_camera_labels") = true.
Proof.
  unfold matches_pattern, startswith.
  rewrite prefix_app_self. cbn [andb].
  rewrite <- append_assoc. apply endswith_app.
Qed.

(** Where the id holds neither marker, the code extracts it. *)
Lemma secondary_id_plain scene_id id :
  contains id "segment-" = false ->
  contains id "_with_camera_labels" = false ->
  secondary_id scene_id ("segment-" +:+ id +:+ "_with_camera_labels") = id.
Proof.
  intros H1 H2. unfold secondary_id.
  fold (matches_pattern ("segment-" +:+ id +:+ "_with_camera_labels")).
  rewrite matches_pattern_markers.
  unfold replace at 2.
  rewrite replace_from_at_occurrence by discriminate.
  rewrite replace_from_app_clean by (done || reflexivity).
  change (replace_from "segment-" "" 0 "_with_camera_labels")
    with "_with_camera_labels".
  change ("" +:+ id +:+ "_with_camera_labels")
    with (id +:+ "_with_camera_labels").
  unfold replace.
  rewrite replace_from_app_clean by (done || reflexivity).
  change (replace_from "_with_camera_labels" "" 0 "_with_camera_labels")
    with "".
  apply append_empty_r.
Qed.

Example secondary_id_abc123 :
  secondary_id 0 "segment-abc123_with_camera_labels" = "abc123".
Proof. reflexivity. Qed.

(** C1, at a name whose id repeats the opening marker. The name has the
    expected form and the text between its two markers is [asegment-b],
    yet the code derives [ab]: [replace] removes every occurrence of a
    marker, not only the enclosing ones. *)
Theorem C1_secondary_id_at_repeated_marker :
  let id := "asegment-b" in
  let filename := "segment-" +:+ id +:+ "_with_camera_labels" in
  matches_pattern filename = true
  /\ secondary_id 0 filename = "ab"
  /\ secondary_id 0 filename <> id
  /\ forall scene_id w,
       derive_segment_id scene_id filename w = (Ok "ab", w).
Proof.
  cbv zeta. split; [reflexivity|]. split; [reflexivity|].
  split; [discriminate|].
  intros scene_id w. rewrite derive_segment_id_run.
  change (matches_pattern _) with true. cbn iota.
  rewrite extend_nil. reflexivity.
Qed.

End SegmentId.

(* ===================================================================== *)
(** ** Effects of a scene fetch: directories and diagnostics              *)
(* ===================================================================== *)

Module FetchEffects.
Import PyStr PyPath Eff Downloader Runs PoolRuns SceneFetch Orchestrator.
Local Open Scope list_scope.

(** The directories that ensuring each path of [ds] makes sure of. *)
Definition ensured (ds : list Path) : gset Path :=
  list_to_set (concat (map self_and_parents ds)).

Lemma ensured_nil : ensured [] = ∅.
Proof. reflexivity. Qed.

Lemma ensured_cons d ds :
  ensured (d :: ds) = list_to_set (self_and_parents d) ∪ ensured ds.
Proof. unfold ensured. cbn [map concat]. apply list_to_set_app_L. Qed.

(** What [run_command] prints after a failed command. *)
Definition failure_tail (description : string) (rc : Z) (err : string)
    : list event :=
  [ Print (cross_mark +:+ " Error in " +:+ description +:+ ":");
    Print ("Return code: " +:+ str_of_Z rc);
    Print ("Error output: " +:+ err) ].

Lemma run_command_events_failed cmd description rc err :
  rc <> 0%Z ->
  run_command_events cmd description rc err
  = [ Print ("Running: " +:+ description); Print ("Command: " +:+ cmd) ]
    ++ Run cmd rc :: failure_tail description rc err.
Proof.
  intros Hrc. unfold run_command_events, failure_tail.
  apply Z.eqb_neq in Hrc. by rewrite Hrc.
Qed.

(** How a fetch that raised ended: on a command with a non-zero status,
    whose standard error the exception carries and whose diagnostics are
    the last lines of the history. *)
Definition failed_on (evs : list event) (e : exn) : Prop :=
  exists pre cmd description rc err,
    rc <> 0%Z
    /\ e = Exception ("Command failed: " +:+ err)
    /\ evs = pre ++ Run cmd rc :: failure_tail description rc err.

Lemma failed_on_app pre evs e : failed_on evs e -> failed_on (pre ++ evs) e.
Proof.
  intros (p & cmd & d & rc & err & Hrc & He & ->).
  exists (pre ++ p), cmd, d, rc, err. by rewrite <- app_assoc.
Qed.

Section Facts.
Variable os : OS.

(** How a fetch that raised without a failed copy ended: at the category
    of position [k], whose directory could not be ensured, every copy
    before it having succeeded. *)
Definition blocked_on (l : list (string * string)) (target : Path) (k : nat)
    (evs : list event) (e : exn) : Prop :=
  exists entry,
    l !! k = Some entry
    /\ mkdir_error os (category_dir target entry) = Some e
    /\ all_succeeded evs = true.

(** The category loop, with the directories it leaves and the way it
    fails: [k] categories were requested. *)
Lemma download_parsed_loop_effects segment_id target l w :
  let rw := for_each l (download_data_type os segment_id target) w in
  exists k evs,
    (k <= length l)%nat
    /\ trace rw.2 = trace w ++ evs
    /\ commands evs = map (category_command segment_id target) (take k l)
    /\ made_dirs evs = map (category_dir target) (take k l)
    /\ dirs rw.2 = dirs w ∪ ensured (map (category_dir target) (take k l))
    /\ (rw.1 = Ok tt -> k = length l /\ all_succeeded evs = true)
    /\ (forall e, rw.1 = Raise e ->
          ((1 <= k)%nat /\ failed_on evs e) \/ blocked_on l target k evs e).
Proof.
  cbv zeta. revert w. induction l as [|entry l IH]; intros w.
  - exists 0%nat, []. cbn [for_each ret fst snd take map length].
    rewrite app_nil_r, ensured_nil, union_empty_r_L.
    repeat split; try done.
  - cbn [for_each]. unfold bind.
    pose proof (download_data_type_run os segment_id target entry w) as Hstep.
    cbv zeta in Hstep. rewrite Hstep. clear Hstep.
    set (description := "Downloading " +:+ entry.1 +:+ " data to "
                        +:+ entry.2 +:+ "/").
    set (cmd := category_command segment_id target entry).
    set (d := category_dir target entry).
    set (rc := (shell os _ cmd).1). set (err := (shell os _ cmd).2).
    destruct (run_command_events_facts cmd description rc err)
      as (Hc & Hd & Hs & Hh).
    destruct (mkdir_error os d) as [e0|] eqn:Emk.
    { exists 0%nat, []. cbn [fst snd take map length].
      rewrite app_nil_r, ensured_nil, union_empty_r_L.
      split; [lia|]. do 4 (split; [reflexivity|]). split; [discriminate|].
      intros e [= <-]. right. exists entry. by repeat split. }
    destruct (rc =? 0)%Z eqn:Erc.
    + set (w1 := mkWorld _ _).
      destruct (IH w1) as (k & evs & Hk & Htr & Hcs & Hds & Hdirs & Hok & Hfail).
      exists (S k), (Mkdir d :: run_command_events cmd description rc err ++ evs).
      split; [cbn; lia|]. split.
      { rewrite Htr. subst w1. cbn [trace]. by rewrite <- app_assoc. }
      rewrite commands_mkdir, made_dirs_mkdir, commands_app, made_dirs_app.
      rewrite Hc, Hd, Hcs, Hds. cbn [app take map].
      split; [reflexivity|]. split; [reflexivity|]. split.
      { rewrite Hdirs. subst w1. cbn [dirs]. rewrite ensured_cons.
        fold d. symmetry. apply assoc_L, _. }
      split.
      { intros H. destruct (Hok H) as [-> Hall]. split; [reflexivity|].
        by rewrite all_succeeded_mkdir, all_succeeded_app, Hs, Hall. }
      intros e He. destruct (Hfail e He) as [[Hk1 Hf] | (en & Hen & Hb & Hall)].
      * left. split; [lia|].
        apply (failed_on_app
                 (Mkdir d :: run_command_events cmd description rc err)), Hf.
      * right. exists en. split; [exact Hen|]. split; [exact Hb|].
        by rewrite all_succeeded_mkdir, all_succeeded_app, Hs, Hall.
    + exists 1%nat, (Mkdir d :: run_command_events cmd description rc err).
      cbn [fst snd trace dirs].
      split; [cbn; lia|]. split; [reflexivity|].
      rewrite commands_mkdir, made_dirs_mkdir, Hc, Hd.
      cbn [take map]. rewrite take_0. cbn [map].
      split; [reflexivity|]. split; [reflexivity|]. split.
      { rewrite ensured_cons, ensured_nil. fold d.
        by rewrite union_empty_r_L. }
      split; [discriminate|].
      intros e [= <-]. left. split; [lia|].
      apply Z.eqb_neq in Erc.
      rewrite (run_command_events_failed _ _ _ _ Erc).
      exists [Mkdir d; Print ("Running: " +:+ description);
              Print ("Command: " +:+ cmd)], cmd, description, rc, err.
      by repeat split.
Qed.

(** The scene fetch, with the directories it leaves and the way it
    fails: after the primary request, [k] categories were requested. *)
Lemma download_scene_data_effects scene_id target filename w :
  let rw := download_scene_data os scene_id target filename w in
  let cmd := primary_command target filename in
  let h := trace w ++ [ scene_header scene_id;
                        Print ("Running: " +:+ primary_description filename);
                        Print ("Command: " +:+ cmd) ] in
  exists k evs,
    (k <= length data_types)%nat
    /\ trace rw.2 = trace w ++ evs
    /\ commands evs
       = cmd :: map (category_command (secondary_id scene_id filename) target)
                    (take k data_types)
    /\ made_dirs evs = map (category_dir target) (take k data_types)
    /\ dirs rw.2
       = dirs w ∪ ensured (map (category_dir target) (take k data_types))
    /\ (rw.1 = Ok tt -> k = length data_types /\ all_succeeded evs = true)
    /\ (forall e, rw.1 = Raise e ->
          failed_on evs e \/ blocked_on data_types target k evs e)
    /\ ((shell os h cmd).1 <> 0%Z -> k = 0%nat).
Proof.
  cbv zeta.
  pose proof (download_scene_data_run os scene_id target filename w) as Hrun.
  cbv zeta in Hrun. rewrite Hrun. clear Hrun.
  set (cmd := primary_command target filename).
  set (description := primary_description filename).
  set (rc := (shell os _ cmd).1). set (err := (shell os _ cmd).2).
  destruct (run_command_events_facts cmd description rc err)
    as (Hc & Hd & Hs & Hh).
  destruct (rc =? 0)%Z eqn:Erc.
  - set (wn := if matches_pattern filename then [] else [warning filename]).
    assert (Hwn : commands wn = [] /\ made_dirs wn = []
                  /\ all_succeeded wn = true).
    { subst wn. by destruct (matches_pattern filename). }
    destruct Hwn as (Hwc & Hwd & Hws).
    set (w2 := extend (extend w _) wn).
    unfold download_parsed_data.
    pose proof (download_parsed_loop_effects (secondary_id scene_id filename)
                  target data_types w2) as Hloop.
    cbv zeta in Hloop.
    destruct Hloop as (k & evs & Hk & Htr & Hcs & Hds & Hdirs & Hok & Hfail).
    set (pre := scene_header scene_id
                :: run_command_events cmd description rc err ++ wn).
    assert (Hpre : commands pre = [cmd] /\ made_dirs pre = []
                   /\ all_succeeded pre = true).
    { subst pre. unfold scene_header.
      rewrite commands_print, made_dirs_print, all_succeeded_print.
      rewrite commands_app, made_dirs_app, all_succeeded_app.
      by rewrite Hc, Hd, Hs, Hwc, Hwd, Hws. }
    destruct Hpre as (Hpc & Hpd & Hps).
    assert (Hw2 : trace w2 = trace w ++ pre).
    { subst w2 pre. rewrite extend_extend. cbn [extend trace].
      by rewrite <- app_comm_cons. }
    assert (Hd2 : dirs w2 = dirs w) by reflexivity.
    destruct (for_each data_types _ w2) as [[[]|e] w3] eqn:Eloop;
      cbn [fst snd] in *.
    + exists k, (pre ++ evs ++ [scene_done scene_id]).
      split; [exact Hk|]. split.
      { rewrite trace_extend, Htr, Hw2. by rewrite <- !app_assoc. }
      rewrite !commands_app, !made_dirs_app, Hpc, Hpd, Hcs, Hds.
      cbn [app commands made_dirs omap scene_done]. rewrite !app_nil_r.
      split; [reflexivity|]. split; [reflexivity|].
      split; [by rewrite dirs_extend, Hdirs, Hd2|].
      split.
      { intros _. destruct (Hok eq_refl) as [-> Hall]. split; [reflexivity|].
        by rewrite !all_succeeded_app, Hps, Hall. }
      split; [discriminate|].
      intros Hrc. apply Z.eqb_eq in Erc. contradiction.
    + exists k, (pre ++ evs).
      split; [exact Hk|]. split.
      { rewrite Htr, Hw2. by rewrite <- !app_assoc. }
      rewrite !commands_app, !made_dirs_app, Hpc, Hpd, Hcs, Hds. cbn [app].
      split; [reflexivity|]. split; [reflexivity|].
      split; [by rewrite Hdirs, Hd2|].
      split; [discriminate|].
      split.
      { intros e' [= <-].
        destruct (Hfail e eq_refl) as [[_ Hf] | (en & Hen & Hb & Hall)].
        - left. by apply failed_on_app.
        - right. exists en. split; [exact Hen|]. split; [exact Hb|].
          by rewrite all_succeeded_app, Hps, Hall. }
      intros Hrc. apply Z.eqb_eq in Erc. contradiction.
  - exists 0%nat, (scene_header scene_id
                   :: run_command_events cmd description rc err).
    cbn [fst snd]. split; [lia|]. split; [reflexivity|].
    unfold scene_header. rewrite commands_print, made_dirs_print, Hc, Hd.
    rewrite take_0. cbn [map]. rewrite ensured_nil.
    split; [reflexivity|]. split; [reflexivity|].
    split; [cbn [extend dirs]; by rewrite union_empty_r_L|].
    split; [discriminate|].
    split; [|done].
    intros e [= <-]. left. apply Z.eqb_neq in Erc.
    rewrite (run_command_events_failed _ _ _ _ Erc).
    exists [Print (nl +:+ "=== Processing scene " +:+ str_of_Z scene_id
                   +:+ " ===");
            Print ("Running: " +:+ description); Print ("Command: " +:+ cmd)],
      cmd, description, rc, err.
    by repeat split.
Qed.

Lemma mkdir_error_no_file p :
  (forall s, files os s = None) -> mkdir_error os p = None.
Proof.
  intros Hnone.
  assert (Hfile : forall q, is_file os q = false).
  { intros q. unfold is_file. rewrite Hnone.
    apply bool_decide_eq_false_2. intros [x Hx]. discriminate Hx. }
  unfold mkdir_error. rewrite Hfile.
  replace (existsb _ _) with false; [reflexivity|].
  symmetry. induction (removelast _) as [|q l IH]; [reflexivity|].
  cbn. by rewrite Hfile.
Qed.

Lemma mkdir_error_cases p e :
  mkdir_error os p = Some e ->
  e = FileExistsError (to_str p) \/ e = NotADirectoryError (to_str p).
Proof.
  unfold mkdir_error. destruct (existsb _ _); [intros [= <-]; by right|].
  destruct (is_file os p); [intros [= <-]; by left | discriminate].
Qed.

End Facts.

Lemma category_dirs_take target k :
  map (category_dir target) (take k data_types)
  = map (div target) (take k categories).
Proof.
  rewrite data_types_categories, <- !firstn_map, map_map. reflexivity.
Qed.

Lemma category_commands_take segment_id target k :
  map (category_command segment_id target) (take k data_types)
  = map (fun category =>
           copy_command (parquet_url category segment_id) (div target category))
        (take k categories).
Proof.
  rewrite data_types_categories, <- !firstn_map, map_map. reflexivity.
Qed.


(** X2. A scene fetch raises for one of two reasons only. Either a copy
    request of its plan ended with a non-zero status: the exception is
    [Exception] with the text [Command failed: ] and that command's
    standard error, and the history ends with the failed command and its
    three diagnostic lines. Or a regular file is in the way of the
    directory of one of the seven categories: the exception is the
    [FileExistsError] or [NotADirectoryError] of that [mkdir], every copy
    requested before it succeeded, and the requests stop there. *)
Theorem scene_failure_carries_stderr os scene_id target filename w e :
  (download_scene_data os scene_id target filename w).1 = Raise e ->
  exists evs,
    trace (download_scene_data os scene_id target filename w).2
    = trace w ++ evs
    /\ ((exists pre cmd description rc err,
           evs = pre ++ Run cmd rc :: failure_tail description rc err
           /\ rc <> 0%Z
           /\ e = Exception ("Command failed: " +:+ err)
           /\ In cmd (scene_plan scene_id target filename))
        \/ (exists k category,
              categories !! k = Some category
              /\ mkdir_error os (div target category) = Some e
              /\ (e = FileExistsError (to_str (div target category))
                  \/ e = NotADirectoryError (to_str (div target category)))
              /\ all_succeeded evs = true
              /\ commands evs
                 = primary_command target filename
                   :: map (fun category =>
                             copy_command
                               (parquet_url category
                                  (secondary_id scene_id filename))
                               (div target category))
                          (take k categories))).
Proof.
  intros He.
  pose proof (download_scene_data_effects os scene_id target filename w) as H.
  cbv zeta in H.
  destruct H as (k & evs & _ & Htr & Hcs & _ & _ & _ & Hfail & _).
  exists evs. split; [exact Htr|].
  destruct (Hfail e He)
    as [(pre & cmd & description & rc & err & Hrc & -> & ->)
       | (entry & Hentry & Hmk & Hall)].
  - left. exists pre, cmd, description, rc, err.
    split; [reflexivity|]. split; [exact Hrc|]. split; [reflexivity|].
    assert (Hin : In cmd (commands (pre ++ Run cmd rc
                                    :: failure_tail description rc err))).
    { rewrite commands_app. apply in_or_app. right. by left. }
    rewrite Hcs in Hin. unfold scene_plan.
    destruct Hin as [<- | Hin]; [by left|]. right.
    apply in_map_iff in Hin as (entry & <- & Hentry).
    apply in_map. rewrite <- (firstn_skipn k data_types).
    apply in_or_app. by left.
  - right. rewrite data_types_categories in Hentry.
    apply lookup_map_Some in Hentry as (category & Hc & ->).
    unfold category_dir in Hmk. cbn [snd] in Hmk.
    exists k, category. split; [exact Hc|]. split; [exact Hmk|].
    split; [by apply (mkdir_error_cases os)|]. split; [exact Hall|].
    by rewrite Hcs, category_commands_take.
Qed.

(** A regular file where the directory of the second category is
    wanted. *)
Definition blocking_os : OS :=
  mkOS (fun s => if String.eqb s "out/lidar_box" then Some "" else None)
       (fun _ _ => (0%Z, "")) (fun _ _ => []) [].

Lemma scene_failure_witness :
  (download_scene_data failing_os 0 (parse "out")
                       "segment-abc_with_camera_labels" empty_world).1
  = Raise (Exception "Command failed: AccessDenied")
  /\ (download_scene_data blocking_os 0 (parse "out")
                          "segment-abc_with_camera_labels" empty_world).1
     = Raise (FileExistsError "out/lidar_box")
  /\ (exists evs cmd,
        trace (download_scene_data failing_os 0 (parse "out")
                 "segment-abc_with_camera_labels" empty_world).2 = [] ++ evs
        /\ In cmd (scene_plan 0 (parse "out") "segment-abc_with_camera_labels")
        /\ exists pre tail, evs = pre ++ Run cmd 1 :: tail)
  /\ (exists evs,
        trace (download_scene_data blocking_os 0 (parse "out")
                 "segment-abc_with_camera_labels" empty_world).2 = [] ++ evs
        /\ length (commands evs) = 2%nat).
Proof.
  split; [reflexivity|]. split; [reflexivity|]. split.
  - destruct (scene_failure_carries_stderr failing_os 0 (parse "out")
                "segment-abc_with_camera_labels" empty_world _ eq_refl)
      as (evs & Htr & [(pre & cmd & description & rc & err & Hevs & Hrc & He
                        & Hin)
                      | (k & category & _ & Hmk & _)]).
    + exists evs, cmd. split; [exact Htr|]. split; [exact Hin|].
      exists pre, (failure_tail description rc err).
      assert (Hone : forall ev, In ev evs ->
                       match ev with Run _ r => r = 1%Z | _ => True end).
      { intros ev Hev.
        assert (Hall : In ev (trace (download_scene_data failing_os 0
                         (parse "out") "segment-abc_with_camera_labels"
                         empty_world).2)).
        { rewrite Htr. exact Hev. }
        vm_compute in Hall.
        repeat (destruct Hall as [<- | Hall]; [done|]). destruct Hall. }
      assert (Hr : In (Run cmd rc) evs).
      { rewrite Hevs. apply in_or_app. right. by left. }
      pose proof (Hone _ Hr) as Hrc1. cbn in Hrc1. by rewrite <- Hrc1.
    + rewrite (mkdir_error_no_file failing_os) in Hmk by reflexivity.
      discriminate Hmk.
  - destruct (scene_failure_carries_stderr blocking_os 0 (parse "out")
                "segment-abc_with_camera_labels" empty_world _ eq_refl)
      as (evs & Htr & [(pre & cmd & description & rc & err & _ & _ & He & _)
                      | (k & category & Hk & Hmk & _ & _ & Hcs)]).
    + discriminate He.
    + exists evs. split; [exact Htr|].
      assert (k = 1%nat) as ->.
      { destruct k as [|[|k]]; [|reflexivity|].
        - injection Hk as <-. vm_compute in Hmk. discriminate Hmk.
        - do 5 (destruct k as [|k];
                [injection Hk as <-; vm_compute in Hmk; discriminate Hmk|]).
          discriminate Hk. }
      by rewrite Hcs.
Defined.

(** X3. After a scene fetch that ends well, the directories known are
    those known before together with the seven category directories
    below the target directory and their parents; each of the seven is
    among them, and the fetch ensured exactly these seven, in order. *)
Theorem successful_scene_directories os scene_id target filename w :
  (download_scene_data os scene_id target filename w).1 = Ok tt ->
  dirs (download_scene_data os scene_id target filename w).2
  = dirs w ∪ ensured (map (div target) categories)
  /\ Forall (fun category =>
               div target category
               ∈ dirs (download_scene_data os scene_id target filename w).2)
            categories
  /\ (forall p,
        p ∈ dirs (download_scene_data os scene_id target filename w).2 ->
        p ∈ dirs w
        \/ exists category,
             In category categories
             /\ In p (self_and_parents (div target category))).
Proof.
  intros Hok.
  pose proof (download_scene_data_effects os scene_id target filename w) as H.
  cbv zeta in H.
  destruct H as (k & evs & _ & _ & _ & _ & Hdirs & Hk & _ & _).
  rewrite (proj1 (Hk Hok)), category_dirs_take in Hdirs.
  change (take (length data_types) categories) with categories in Hdirs.
  assert (Hmem : forall p,
             p ∈ ensured (map (div target) categories)
             <-> exists category, In category categories
                  /\ In p (self_and_parents (div target category))).
  { intros p. unfold ensured. rewrite elem_of_list_to_set, list_elem_of_In.
    rewrite in_concat. split.
    - intros (l & Hl & Hp). apply in_map_iff in Hl as (d & <- & Hd).
      apply in_map_iff in Hd as (category & <- & Hc). eauto.
    - intros (category & Hc & Hp). exists (self_and_parents (div target category)).
      split; [|exact Hp]. apply in_map, in_map, Hc. }
  split; [exact Hdirs|]. split.
  - apply Forall_forall. intros category Hc. apply list_elem_of_In in Hc.
    rewrite Hdirs. apply elem_of_union. right. apply Hmem.
    exists category. split; [exact Hc|].
    apply Orchestrator.self_in_self_and_parents.
    rewrite (category_dir_below _ _ Hc). cbn [parts].
    by destruct (parts target).
  - intros p Hp. rewrite Hdirs in Hp. apply elem_of_union in Hp as [Hp | Hp];
      [by left | right; by apply Hmem].
Qed.

Lemma successful_scene_directories_witness :
  (download_scene_data quiet_os 3 (parse "out") "weird_name" empty_world).1
  = Ok tt
  /\ Forall (fun category =>
               div (parse "out") category
               ∈ dirs (download_scene_data quiet_os 3 (parse "out")
                         "weird_name" empty_world).2)
            categories.
Proof.
  split; [reflexivity|].
  exact (proj1 (proj2 (successful_scene_directories quiet_os 3 (parse "out")
                         "weird_name" empty_world eq_refl))).
Defined.

(** X4. Whatever its result, a scene fetch has ensured the directories of
    exactly the categories it requested, as many as it made requests
    after the primary one: none when the primary copy failed, so that a
    failed primary copy leaves the known directories as they were, and
    the directory of a category whose copy failed is among them. *)
Theorem scene_directories_follow_requests os scene_id target filename w :
  let run := download_scene_data os scene_id target filename w in
  let cmd := primary_command target filename in
  let h := trace w ++ [ scene_header scene_id;
                        Print ("Running: " +:+ primary_description filename);
                        Print ("Command: " +:+ cmd) ] in
  exists k evs,
    (k <= 7)%nat
    /\ trace run.2 = trace w ++ evs
    /\ commands evs
       = cmd :: map (fun category =>
                       copy_command
                         (parquet_url category (secondary_id scene_id filename))
                         (div target category))
                    (take k categories)
    /\ made_dirs evs = map (div target) (take k categories)
    /\ dirs run.2 = dirs w ∪ ensured (map (div target) (take k categories))
    /\ (run.1 = Ok tt -> k = 7%nat)
    /\ ((shell os h cmd).1 <> 0%Z -> k = 0%nat /\ dirs run.2 = dirs w).
Proof.
  cbv zeta.
  pose proof (download_scene_data_effects os scene_id target filename w) as H.
  cbv zeta in H.
  destruct H as (k & evs & Hk & Htr & Hcs & Hds & Hdirs & Hok & _ & Hprim).
  rewrite category_commands_take in Hcs. rewrite category_dirs_take in Hds, Hdirs.
  exists k, evs. split; [exact Hk|]. split; [exact Htr|].
  split; [exact Hcs|]. split; [exact Hds|]. split; [exact Hdirs|].
  split; [intros H; exact (proj1 (Hok H))|].
  intros Hrc. pose proof (Hprim Hrc) as ->. split; [reflexivity|].
  rewrite Hdirs, take_0. cbn [map]. by rewrite ensured_nil, union_empty_r_L.
Qed.

End FetchEffects.

(* ===================================================================== *)
(** ** The bounds of resolving, and ids without markers                   *)
(* ===================================================================== *)

Module ResolverBounds.
Import PyStr PyPath Eff Downloader Runs SceneFetch Resolver SegmentId.
Local Open Scope list_scope.
Local Open Scope Z_scope.

Lemma getitem_out_of_range {A} (l : list A) i :
  ~ (- Z.of_nat (length l) <= i < Z.of_nat (length l)) ->
  getitem l i = Raise IndexError.
Proof.
  intros Hi. unfold getitem.
  destruct (i <? 0) eqn:Eneg.
  - apply Z.ltb_lt in Eneg.
    replace (0 <=? Z.of_nat (length l) + i) with false
      by (symmetry; apply Z.leb_gt; lia).
    reflexivity.
  - apply Z.ltb_ge in Eneg.
    replace (i <? Z.of_nat (length l)) with false
      by (symmetry; apply Z.ltb_ge; lia).
    by rewrite andb_false_r.
Qed.

(** X5. With the index file in place, resolving succeeds exactly when
    every requested index lies between minus the number of lines
    (included) and the number of lines (excluded): it then returns, in
    order, the stripped line each index selects, counting a negative one
    from the end; otherwise it raises [IndexError], whatever the other
    indices are, and the orchestrator, where it can ensure the target
    directory, ends with that error after ensuring it only. *)
Theorem resolve_succeeds_iff_in_range os path content scene_ids w :
  files os path = Some content ->
  let n := length (readlines content) in
  ((forall i, In i scene_ids -> - Z.of_nat n <= i < Z.of_nat n) ->
   resolve_file_names os scene_ids path w
   = (Ok (map (fun i => strip (nth (position n i) (readlines content) ""))
              scene_ids), w))
  /\ ((exists i, In i scene_ids /\ ~ (- Z.of_nat n <= i < Z.of_nat n)) ->
      resolve_file_names os scene_ids path w = (Raise IndexError, w)
      /\ forall target_dir,
           mkdir_error os (parse target_dir) = None ->
           let run := download_training_data os scene_ids target_dir path w in
           run.1 = Raise IndexError
           /\ trace run.2 = trace w ++ [Mkdir (parse target_dir)]).
Proof.
  intros Hf. cbv zeta. split.
  - intros Hin. rewrite (resolve_file_names_run os _ _ content) by exact Hf.
    f_equal. apply traverse_ok. intros i Hi. unfold file_name_at.
    by rewrite (getitem_in_range _ "") by (apply Hin, Hi).
  - intros (i & Hi & Hout).
    assert (Hres : forall w0,
               resolve_file_names os scene_ids path w0 = (Raise IndexError, w0)).
    { intros w0. rewrite (resolve_file_names_run os _ _ content) by exact Hf.
      f_equal. apply (traverse_raise _ _ i); [exact Hi | |].
      - unfold file_name_at. by rewrite getitem_out_of_range.
      - intros y e'. unfold file_name_at.
        destruct (getitem _ y) eqn:E; [discriminate|].
        intros [= <-]. by apply getitem_raises in E. }
    split; [apply Hres|]. intros target_dir Hmk.
    by rewrite (download_training_data_stops os scene_ids target_dir path w
                  IndexError _ Hmk (Hres _)).
Qed.

Lemma resolve_succeeds_witness :
  files padded_os "list.txt" = Some (" a" +:+ nl +:+ "b" +:+ nl)
  /\ resolve_file_names padded_os [-2; 1; -1] "list.txt" empty_world
     = (Ok ["a"; "b"; "b"], empty_world)
  /\ resolve_file_names padded_os [0; -3] "list.txt" empty_world
     = (Raise IndexError, empty_world)
  /\ trace (download_training_data padded_os [0; -3] "out" "list.txt"
                                   empty_world).2
     = [Mkdir (parse "out")].
Proof.
  pose proof (resolve_succeeds_iff_in_range padded_os "list.txt"
                (" a" +:+ nl +:+ "b" +:+ nl) [-2; 1; -1] empty_world eq_refl)
    as [Hok _].
  pose proof (resolve_succeeds_iff_in_range padded_os "list.txt"
                (" a" +:+ nl +:+ "b" +:+ nl) [0; -3] empty_world eq_refl)
    as [_ Hbad].
  assert (Hout : exists i, In i [0; -3]
                           /\ ~ (- Z.of_nat (length (readlines
                                     (" a" +:+ nl +:+ "b" +:+ nl))) <= i
                                 < Z.of_nat (length (readlines
                                     (" a" +:+ nl +:+ "b" +:+ nl))))).
  { exists (-3). split; [right; by left|].
    vm_compute. intros [H _]. by apply H. }
  split; [reflexivity|]. split; [|split].
  - apply Hok. intros i [<- | [<- | [<- | []]]]; vm_compute; split; congruence.
  - exact (proj1 (Hbad Hout)).
  - exact (proj2 (proj2 (Hbad Hout) "out" eq_refl)).
Defined.

(** X6. For a file name made of [segment-], an id and
    [_with_camera_labels], where the id contains neither marker, the
    derivation returns the id itself and prints nothing. *)
Theorem derive_segment_id_plain scene_id id w :
  contains id "segment-" = false ->
  contains id "_with_camera_labels" = false ->
  derive_segment_id scene_id ("segment-" +:+ id +:+ "_with_camera_labels") w
  = (Ok id, w).
Proof.
  intros H1 H2. rewrite derive_segment_id_run.
  rewrite matches_pattern_markers, extend_nil.
  by rewrite secondary_id_plain.
Qed.

Lemma derive_segment_id_plain_witness :
  contains "10017090168044687777_6380_000_6400_000" "segment-" = false
  /\ contains "10017090168044687777_6380_000_6400_000" "_with_camera_labels"
     = false
  /\ derive_segment_id 0
       "segment-10017090168044687777_6380_000_6400_000_with_camera_labels"
       empty_world
     = (Ok "10017090168044687777_6380_000_6400_000", empty_world).
Proof.
  split; [reflexivity|]. split; [reflexivity|].
  exact (derive_segment_id_plain 0 "10017090168044687777_6380_000_6400_000"
           empty_world eq_refl eq_refl).
Defined.

End ResolverBounds.

(* ===================================================================== *)
(** ** The whole run: listing and number of requests                      *)
(* ===================================================================== *)

Module WholeRun.
Import PyStr PyPath Eff Downloader Runs Threads PoolRuns SceneFetch Resolver
  Orchestrator SplitFile SegmentId FetchEffects.
Local Open Scope list_scope.

(** The number of commands of one event. *)
Definition ran (e : event) : nat :=
  match e with Run _ _ => 1 | _ => 0 end.

Lemma length_commands_cons e evs :
  length (commands (e :: evs)) = (ran e + length (commands evs))%nat.
Proof. by destruct e. Qed.

Lemma list_sum_cons x l : list_sum (x :: l) = (x + list_sum l)%nat.
Proof. reflexivity. Qed.

Lemma list_sum_bump (f : nat -> nat) j c s n :
  list_sum (map (fun i => ((if Nat.eqb j i then c else 0) + f i)%nat) (seq s n))
  = ((if ((s <=? j) && (j <? s + n))%nat then c else 0)
     + list_sum (map f (seq s n)))%nat.
Proof.
  revert s. induction n as [|n IH]; intros s; cbn [seq map].
  - destruct (Nat.leb_spec s j), (Nat.ltb_spec j (s + 0)); cbn; lia.
  - rewrite !list_sum_cons, IH.
    destruct (Nat.eqb_spec j s), (Nat.leb_spec s j), (Nat.leb_spec (S s) j),
      (Nat.ltb_spec j (s + S n)), (Nat.ltb_spec j (S s + n)); cbn; lia.
Qed.

(** The commands of a history are those of its threads. *)
Lemma commands_by_thread n owners evs :
  length owners = length evs ->
  Forall (fun o => match o with
                   | Main => True
                   | Worker i => (i < n)%nat
                   end) owners ->
  length (commands evs)
  = (length (commands (events_of Main owners evs))
     + list_sum (map (fun i => length (commands
                                         (events_of (Worker i) owners evs)))
                     (seq 0 n)))%nat.
Proof.
  revert evs. induction owners as [|o owners IH]; intros [|e evs] Hlen Hown;
    try discriminate Hlen.
  - cbn [events_of commands omap length].
    induction (seq 0 n) as [|i l IHl]; [reflexivity|].
    cbn [map]. rewrite list_sum_cons. by rewrite <- IHl.
  - injection Hlen as Hlen. inversion Hown as [|? ? Ho Hrest]; subst.
    rewrite length_commands_cons, (IH evs Hlen Hrest).
    cbn [events_of]. destruct o as [|j]; cbn [same_thread].
    + rewrite length_commands_cons. lia.
    + rewrite (map_ext
                 (fun i => length (commands
                             (if Nat.eqb j i
                              then e :: events_of (Worker i) owners evs
                              else events_of (Worker i) owners evs)))
                 (fun i => ((if Nat.eqb j i then ran e else 0)
                            + length (commands
                                        (events_of (Worker i) owners evs)))%nat)).
      2:{ intros i. destruct (Nat.eqb j i); [|reflexivity].
          by rewrite length_commands_cons. }
      rewrite list_sum_bump.
      replace ((0 <=? j) && (j <? 0 + n))%nat with true; [lia|].
      symmetry. apply andb_true_iff. split;
        [apply Nat.leb_le; lia | apply Nat.ltb_lt; lia].
Qed.

Lemma list_sum_bounds (f : nat -> nat) a b s n :
  (forall i, (s <= i < s + n)%nat -> (a <= f i <= b)%nat) ->
  (a * n <= list_sum (map f (seq s n)) <= b * n)%nat.
Proof.
  revert s. induction n as [|n IH]; intros s H; cbn [seq map];
    [cbn; lia|]. rewrite list_sum_cons.
  specialize (IH (S s)). specialize (H s) as Hs.
  assert (a * n <= list_sum (map f (seq (S s) n)) <= b * n)%nat
    by (apply IH; intros i Hi; apply H; lia).
  assert (a <= f s <= b)%nat by (apply Hs; lia). lia.
Qed.

Lemma all_succeeded_events_of t owners evs :
  all_succeeded evs = true -> all_succeeded (events_of t owners evs) = true.
Proof.
  revert evs. induction owners as [|o owners IH]; intros [|e evs] H;
    try reflexivity.
  cbn [events_of]. cbn [all_succeeded forallb] in H.
  apply andb_true_iff in H as [He H].
  destruct (same_thread o t); [|by apply IH].
  cbn [all_succeeded forallb]. rewrite He. by apply IH.
Qed.

Section Facts.
Variable os : OS.

(** The requests of one task of the pool: at least one and at most
    eight; eight when its own requests succeeded and no file is in the
    way of a category directory. *)
Lemma scene_history_commands target task h r :
  scene_history os target task h r ->
  (1 <= length (commands h) <= 8)%nat
  /\ (all_succeeded h = true ->
      Forall (fun d => mkdir_error os d = None) (scene_dirs target) ->
      length (commands h) = 8%nat).
Proof.
  intros H. apply download_scene_data_emits in H
    as [(_ & _ & Hiff & Hres & [k Hk] & _ & Hplan) (rc & err & rest & Hh)].
  split.
  - split.
    + rewrite Hh. unfold scene_header. rewrite commands_print, commands_app.
      destruct (run_command_events_facts (primary_command target task.2)
                  (primary_description task.2) rc err) as (Hc & _).
      rewrite Hc. cbn. lia.
    + rewrite Hk, length_take. unfold scene_plan. cbn [length].
      rewrite length_map. change (length data_types) with 7%nat. lia.
  - intros Hall Hclear. specialize (Hiff Hclear). rewrite Hall in Hiff.
    destruct (Hplan Hiff) as [-> _]. unfold scene_plan. cbn [length].
    by rewrite length_map.
Qed.

(** The requests of the whole pool. *)
Lemma run_pool_commands scene_ids target names w :
  length names = length scene_ids ->
  exists evs,
    run_pool os scene_ids target names w = (Ok tt, apply_events evs w)
    /\ (length scene_ids <= length (commands evs) <= 8 * length scene_ids)%nat
    /\ (all_succeeded evs = true ->
        Forall (fun d => mkdir_error os d = None) (scene_dirs target) ->
        length (commands evs) = (8 * length scene_ids)%nat).
Proof.
  intros Hnames.
  destruct (run_pool_run os scene_ids target names w)
    as (owners & evs & futures & Hrun & Hlen & Hown & Hfut & Hmain & Htasks).
  cbv zeta in *.
  assert (Hn : length (zip scene_ids names) = length scene_ids)
    by (by apply length_zip).
  rewrite Hn in Hown.
  exists evs. split; [exact Hrun|].
  pose proof (commands_by_thread _ _ _ Hlen Hown) as Hsum.
  assert (Hmain0 : length (commands (events_of Main owners evs)) = 0%nat).
  { rewrite Hmain.
    by rewrite (proj1 (prints_no_effects _ (reports_print _ _))). }
  rewrite Hmain0 in Hsum. cbn [Nat.add] in Hsum. rewrite Hsum.
  assert (Htask : forall i, (0 <= i < 0 + length scene_ids)%nat ->
            exists task r,
              scene_history os target task (events_of (Worker i) owners evs) r).
  { intros i Hi.
    assert (Hlt : (i < length (zip scene_ids names))%nat) by lia.
    apply lookup_lt_is_Some in Hlt as [task Htask].
    destruct (Htasks i task Htask) as (r & _ & Hh). by exists task, r. }
  split.
  - rewrite <- (Nat.mul_1_l (length scene_ids)) at 1.
    apply list_sum_bounds. intros i Hi.
    destruct (Htask i Hi) as (task & r & Hh).
    apply (scene_history_commands _ _ _ _ Hh).
  - intros Hall Hclear.
    pose proof (list_sum_bounds
                  (fun i => length (commands (events_of (Worker i) owners evs)))
                  8 8 0 (length scene_ids)) as Hb.
    assert (8 * length scene_ids
            <= list_sum (map (fun i => length (commands
                                (events_of (Worker i) owners evs)))
                             (seq 0 (length scene_ids)))
            <= 8 * length scene_ids)%nat; [|lia].
    apply Hb. intros i Hi.
    destruct (Htask i Hi) as (task & r & Hh).
    rewrite (proj2 (scene_history_commands _ _ _ _ Hh)); [lia | | exact Hclear].
    by apply all_succeeded_events_of.
Qed.

End Facts.

(** X7. With the index file in place, every index one Python accepts
    and a target directory that can be ensured, the orchestrator returns
    normally, with exit status zero, whatever the copies did and in
    whatever order the threads of the pool acted; it has ensured the
    target directory first, and the number of copy requests it made lies
    between the number of scenes and eight times that number, reaching
    it when every request succeeded and no regular file is in the way of
    a category directory. With no scene requested it requests nothing. *)
Theorem orchestrator_request_count os scene_ids target_dir index_path content w :
  files os index_path = Some content ->
  (forall i, In i scene_ids ->
             (- Z.of_nat (length (readlines content)) <= i
              < Z.of_nat (length (readlines content)))%Z) ->
  mkdir_error os (parse target_dir) = None ->
  let run := download_training_data os scene_ids target_dir index_path w in
  run.1 = Ok tt
  /\ exit_status run.1 = 0%Z
  /\ exists evs,
       trace run.2 = trace w ++ Mkdir (parse target_dir) :: evs
       /\ (length scene_ids <= length (commands evs) <= 8 * length scene_ids)%nat
       /\ (all_succeeded evs = true ->
           Forall (fun category =>
                     mkdir_error os (div (parse target_dir) category) = None)
                  categories ->
           length (commands evs) = (8 * length scene_ids)%nat).
Proof.
  intros Hf Hin Hmk. cbv zeta.
  set (names := map (fun i => strip (nth (position (length (readlines content)) i)
                                         (readlines content) "")) scene_ids).
  assert (Hres : forall w0,
             resolve_file_names os scene_ids index_path w0 = (Ok names, w0)).
  { intros w0. rewrite (resolve_file_names_run os _ _ content) by exact Hf.
    f_equal. apply traverse_ok. intros i Hi. unfold file_name_at.
    by rewrite (getitem_in_range _ "") by (apply Hin, Hi). }
  pose proof (download_training_data_run os scene_ids target_dir index_path
                names w Hmk Hres) as Hrun.
  cbv zeta in Hrun.
  set (w1 := extend (apply_event (Mkdir (parse target_dir)) w) _) in Hrun.
  destruct (run_pool_commands os scene_ids (parse target_dir) names w1)
    as (evs & Hpool & Hbound & Hall).
  { subst names. by rewrite length_map. }
  rewrite Hpool in Hrun. cbn [fst snd] in Hrun. rewrite (Hrun eq_refl).
  cbn [fst snd exit_status].
  split; [reflexivity|]. split; [reflexivity|].
  set (listing := concat _).
  assert (Hquiet : forall l, forallb is_print l = true ->
                             commands l = [] /\ all_succeeded l = true).
  { intros l Hl. split; [by apply prints_no_effects|].
    induction l as [|[line|p|cmd rc] l IH]; try done. by apply IH. }
  destruct (Hquiet (opening scene_ids (parse target_dir)) eq_refl) as [Ho1 Ho2].
  destruct (Hquiet (closing (parse target_dir)) eq_refl) as [Hc1 Hc2].
  destruct (Hquiet listing (listing_prints _ _)) as [Hl1 Hl2].
  exists (opening scene_ids (parse target_dir) ++ evs
          ++ closing (parse target_dir) ++ listing).
  split; [|split].
  - rewrite trace_extend, trace_apply_events. subst w1.
    cbn [trace extend apply_event]. rewrite <- !app_assoc. reflexivity.
  - rewrite !commands_app, Ho1, Hc1, Hl1. cbn [app]. by rewrite !app_nil_r.
  - rewrite !all_succeeded_app, Ho2, Hc2, Hl2, !andb_true_r. cbn [andb].
    rewrite !commands_app, Ho1, Hc1, Hl1. cbn [app]. rewrite !app_nil_r.
    intros Hs Hclear. apply Hall; [exact Hs|].
    rewrite scene_dirs_categories. by apply Forall_map.
Qed.

Lemma orchestrator_request_count_witness :
  files padded_os "list.txt" = Some (" a" +:+ nl +:+ "b" +:+ nl)
  /\ mkdir_error padded_os (parse "out") = None
  /\ (download_training_data padded_os [0; -1]%Z "out" "list.txt" empty_world).1
     = Ok tt
  /\ (download_training_data padded_os [] "out" "list.txt" empty_world).1
     = Ok tt.
Proof.
  split; [reflexivity|]. split; [reflexivity|]. split.
  - refine (proj1 (orchestrator_request_count padded_os [0; -1]%Z "out"
                     "list.txt" (" a" +:+ nl +:+ "b" +:+ nl) empty_world
                     eq_refl _ eq_refl)).
    intros i [<- | [<- | []]]; vm_compute; split; congruence.
  - refine (proj1 (orchestrator_request_count padded_os [] "out"
                     "list.txt" (" a" +:+ nl +:+ "b" +:+ nl) empty_world
                     eq_refl _ eq_refl)).
    intros i [].
Defined.

(** Where [old] does not occur at all, [replace] returns its argument. *)
Lemma string_drop_cons k old :
  (k < String.length old)%nat ->
  exists c s, string_drop k old = String c s.
Proof.
  revert old. induction k as [|k IH]; intros [|c old] H; cbn in H; try lia.
  - eauto.
  - cbn [string_drop]. apply IH. lia.
Qed.

Lemma straddle_free_nil old : straddle_free old "" = true.
Proof.
  unfold straddle_free. apply forallb_forall. intros k Hk.
  apply in_seq in Hk.
  destruct (string_drop_cons k old) as (c & s & ->); [lia|]. reflexivity.
Qed.

Lemma replace_from_clean old new s :
  contains s old = false -> replace_from old new 0 s = s.
Proof.
  intros H. rewrite <- (append_empty_r s) at 1.
  rewrite replace_from_app_clean by (done || apply straddle_free_nil).
  apply append_empty_r.
Qed.

Lemma replace_leading t rest :
  t <> "" -> contains rest t = false -> replace (t +:+ rest) t "" = rest.
Proof.
  intros Hne Hc. unfold replace. destruct t as [|c t]; [done|].
  rewrite replace_from_at_occurrence by done.
  by rewrite replace_from_clean.
Qed.

(** The text of a parsed path is never empty. *)
Lemma splitroot_root s :
  (splitroot s).1 = "" \/ (splitroot s).1 = "/" \/ (splitroot s).1 = "//".
Proof.
  destruct s as [|c t]; [by left|].
  destruct c as [[] [] [] [] [] [] [] []]; try (by left).
  destruct t as [|d u]; [right; by left|].
  destruct d as [[] [] [] [] [] [] [] []]; try (right; by left).
  destruct u as [|e v]; [right; by right|].
  destruct e as [[] [] [] [] [] [] [] []]; try (right; by right).
  right; by left.
Qed.

Lemma to_str_parse_nonempty s : to_str (parse s) <> "".
Proof.
  unfold parse. destruct (splitroot s) as [r rel] eqn:E.
  pose proof (splitroot_root s) as Hr. rewrite E in Hr. cbn [fst] in Hr.
  unfold to_str. cbn [root parts].
  destruct Hr as [-> | [-> | ->]]; [|discriminate..].
  destruct (List.filter keep_part (split rel "/")) as [|x xs] eqn:Ef;
    [discriminate|].
  assert (Hx : keep_part x = true).
  { assert (Hin : In x (List.filter keep_part (split rel "/")))
      by (rewrite Ef; by left).
    by apply filter_In in Hin as [_ Hx]. }
  destruct x as [|c x]; [discriminate Hx|].
  destruct xs; discriminate.
Qed.

(** X8. In the listing, a directory whose path is the text of the target
    path followed by [rest], the text of the target path not occurring
    in [rest], is printed as its base name and a slash, indented by two
    spaces for every slash in [rest]; its files follow, one per line,
    two spaces deeper; nothing else happens. The target directory itself
    is not indented. *)
Theorem listing_indents_by_depth target_dir rest dirnames files w :
  contains rest (to_str (parse target_dir)) = false ->
  let root := to_str (parse target_dir) +:+ rest in
  list_entry (parse target_dir) (root, dirnames, files) w
  = (Ok tt,
     extend w
       (Print (repeat_str "  " (count_char "/" rest) +:+ basename root +:+ "/")
        :: map (fun file =>
                  Print (repeat_str "  " (count_char "/" rest + 1) +:+ file))
               files)).
Proof.
  intros Hc. cbv zeta. rewrite list_entry_run.
  unfold entry_events, entry_level.
  by rewrite replace_leading by (apply to_str_parse_nonempty || exact Hc).
Qed.

Lemma listing_indents_witness :
  contains "/lidar" (to_str (parse "data/raw")) = false
  /\ list_entry (parse "data/raw")
       ("data/raw/lidar", [], ["a.parquet"]) empty_world
     = (Ok tt,
        extend empty_world [Print "  lidar/"; Print "    a.parquet"]).
Proof.
  split; [reflexivity|].
  exact (listing_indents_by_depth "data/raw" "/lidar" [] ["a.parquet"]
           empty_world eq_refl).
Defined.

End WholeRun.

(* ===================================================================== *)
(** ** The entry point                                                    *)
(* ===================================================================== *)

Module EntryPoint.
Import PyStr PyPath Eff Downloader Runs SceneFetch Resolver SplitFile.
Local Open Scope list_scope.
Local Open Scope Z_scope.

(** The two lines [main] prints first. *)
Definition banner : list event :=
  [ Print "Note: `gcloud auth login` is required before running this script";
    Print "Downloading Waymo training dataset from Google Cloud Storage..." ].

(** A comprehension with a failing element fails, with the error of one
    of its elements. *)
Lemma traverse_fails {A B} (g : A -> res B) l x :
  In x l -> is_ok (g x) = false ->
  exists y e, In y l /\ g y = Raise e /\ traverse g l = Raise e.
Proof.
  intros Hin Hx. induction l as [|z l IH]; [destruct Hin|].
  cbn [traverse]. destruct (g z) as [v|e] eqn:Ez.
  - destruct Hin as [-> | Hin]; [rewrite Ez in Hx; discriminate Hx|].
    destruct (IH Hin) as (y & e & Hy & Hg & ->).
    exists y, e. split; [by right | by split].
  - exists z, e. split; [by left | by split].
Qed.

Section Facts.
Variable os : OS.

Lemma main_with_split_file args split_file w :
  arg_split_file args = Some split_file ->
  main os args w
  = match read_split_file os split_file (extend w banner) with
    | (Ok scene_ids, w') =>
        download_training_data os scene_ids (arg_target_dir args)
                               (arg_waymo_train_list args) w'
    | (Raise e, w') => (Raise e, w')
    end.
Proof.
  intros Hs. unfold main. rewrite Hs.
  unfold bind at 1. rewrite print_run.
  unfold bind at 1. rewrite print_run. rewrite extend_extend.
  unfold bind at 1. reflexivity.
Qed.

End Facts.

(** X9. When the split file given on the command line does not exist,
    [main] prints the two opening lines and the error line and exits with
    status 1 before anything else: no directory is ensured, not even the
    target directory, and no command runs. *)
Theorem main_split_file_missing os args split_file w :
  arg_split_file args = Some split_file ->
  files os split_file = None ->
  parse split_file ∉ dirs w ->
  main os args w
  = (Raise (SystemExit 1),
     extend w (banner
               ++ [Print ("Error: Split file not found at " +:+ split_file)]))
  /\ exit_status (main os args w).1 = 1
  /\ dirs (main os args w).2 = dirs w.
Proof.
  intros Hs Hf Hd.
  assert (Hrun : main os args w
                 = (Raise (SystemExit 1),
                    extend w (banner ++ [Print ("Error: Split file not found at "
                                                +:+ split_file)]))).
  { rewrite (main_with_split_file os _ _ _ Hs).
    unfold read_split_file. unfold bind at 1. unfold path_exists at 1.
    rewrite Hf. rewrite (bool_decide_eq_false_2 (is_Some None))
      by (intros [x Hx]; discriminate Hx).
    rewrite dirs_extend, (bool_decide_eq_false_2 _ Hd). cbn [orb negb].
    unfold bind at 1. unfold bind at 1. rewrite print_run.
    rewrite extend_extend. reflexivity. }
  rewrite Hrun. by repeat split.
Qed.

Lemma main_split_file_missing_witness :
  files quiet_os "nowhere.csv" = None
  /\ main quiet_os (mkArgs "out" [0] (Some "nowhere.csv") "list.txt") empty_world
     = (Raise (SystemExit 1),
        extend empty_world
          (banner ++ [Print "Error: Split file not found at nowhere.csv"])).
Proof.
  split; [reflexivity|].
  refine (proj1 (main_split_file_missing quiet_os
                   (mkArgs "out" [0] (Some "nowhere.csv") "list.txt")
                   "nowhere.csv" empty_world eq_refl eq_refl _)).
  vm_compute. intros H. discriminate H.
Defined.

(** X10. A split file with a line after its header whose first
    comma-delimited field is no integer, a blank line for one, makes
    [main] end with [ValueError] right after its two opening lines:
    nothing is downloaded and no directory is ensured, whatever the other
    lines hold. *)
Theorem main_split_file_bad_row os args split_file content line w :
  arg_split_file args = Some split_file ->
  files os split_file = Some content ->
  In line (drop 1 (readlines content)) ->
  int (first_field line) = None ->
  exists field,
    main os args w = (Raise (ValueError field), extend w banner)
    /\ exit_status (main os args w).1 = 1
    /\ exists bad, In bad (drop 1 (readlines content))
                /\ field = first_field (strip bad)
                /\ int (first_field bad) = None.
Proof.
  intros Hs Hf Hin Hint.
  destruct (traverse_fails scene_id_of_line (drop 1 (readlines content)) line
              Hin) as (bad & e & Hbad & Hg & Htr).
  { unfold scene_id_of_line. by rewrite Hint. }
  unfold scene_id_of_line in Hg.
  destruct (int (first_field bad)) eqn:Eb; [discriminate|].
  injection Hg as <-.
  exists (first_field (strip bad)).
  assert (Hrun : main os args w
                 = (Raise (ValueError (first_field (strip bad))),
                    extend w banner)).
  { rewrite (main_with_split_file os _ _ _ Hs).
    by rewrite (read_split_file_run os _ content) by exact Hf; rewrite Htr. }
  rewrite Hrun. split; [reflexivity|]. split; [reflexivity|].
  exists bad. by repeat split.
Qed.

(** A split file whose last line is blank. *)
Definition blank_row_os : OS :=
  mkOS (fun s => if String.eqb s "split.csv"
                 then Some ("scene,name" +:+ nl +:+ "7,foo" +:+ nl +:+ nl)
                 else None)
       (fun _ _ => (0, "")) (fun _ _ => []) [].

Lemma main_split_file_bad_row_witness :
  files blank_row_os "split.csv"
  = Some ("scene,name" +:+ nl +:+ "7,foo" +:+ nl +:+ nl)
  /\ In nl (drop 1 (readlines ("scene,name" +:+ nl +:+ "7,foo" +:+ nl +:+ nl)))
  /\ int (first_field nl) = None
  /\ exists field,
       main blank_row_os (mkArgs "out" [0] (Some "split.csv") "list.txt")
            empty_world
       = (Raise (ValueError field), extend empty_world banner).
Proof.
  split; [reflexivity|]. split; [right; by left|]. split; [reflexivity|].
  destruct (main_split_file_bad_row blank_row_os
              (mkArgs "out" [0] (Some "split.csv") "list.txt") "split.csv"
              ("scene,name" +:+ nl +:+ "7,foo" +:+ nl +:+ nl) nl empty_world
              eq_refl eq_refl (or_intror (or_introl eq_refl)) eq_refl)
    as (field & Hrun & _).
  exists field. exact Hrun.
Defined.

(** X11. When a split file is given and every line after its header
    starts with an integer field, [main] is the orchestrator run on
    those integers, in file order, after the two opening lines: the
    scene ids of the command line play no part. *)
Theorem main_split_file_overrides os args split_file content ids w :
  arg_split_file args = Some split_file ->
  files os split_file = Some content ->
  Forall2 (fun line n => int (first_field line) = Some n)
          (drop 1 (readlines content)) ids ->
  main os args w
  = download_training_data os ids (arg_target_dir args)
                           (arg_waymo_train_list args) (extend w banner)
  /\ forall other_ids,
       main os (mkArgs (arg_target_dir args) other_ids (Some split_file)
                       (arg_waymo_train_list args)) w
       = main os args w.
Proof.
  intros Hs Hf Hrows.
  assert (Hread : forall w0, read_split_file os split_file w0 = (Ok ids, w0)).
  { intros w0. rewrite (read_split_file_run os _ content) by exact Hf.
    f_equal. apply traverse_Forall2.
    eapply Forall2_impl; [exact Hrows|]. intros l n E.
    unfold scene_id_of_line. by rewrite E. }
  assert (Hmain : main os args w
                  = download_training_data os ids (arg_target_dir args)
                      (arg_waymo_train_list args) (extend w banner)).
  { by rewrite (main_with_split_file os _ _ _ Hs), Hread. }
  split; [exact Hmain|].
  intros other_ids. rewrite Hmain.
  rewrite (main_with_split_file os
             (mkArgs (arg_target_dir args) other_ids (Some split_file)
                     (arg_waymo_train_list args)) split_file w eq_refl).
  by rewrite Hread.
Qed.

Lemma main_split_file_overrides_witness :
  files split_os "split.csv"
  = Some ("scene,name" +:+ nl +:+ "7,foo" +:+ nl +:+ "12,bar" +:+ nl)
  /\ main split_os (mkArgs "out" [0] (Some "split.csv") "list.txt") empty_world
     = download_training_data split_os [7; 12] "out" "list.txt"
                              (extend empty_world banner).
Proof.
  split; [reflexivity|].
  refine (proj1 (main_split_file_overrides split_os
                   (mkArgs "out" [0] (Some "split.csv") "list.txt") "split.csv"
                   ("scene,name" +:+ nl +:+ "7,foo" +:+ nl +:+ "12,bar" +:+ nl)
                   [7; 12] empty_world eq_refl eq_refl _)).
  repeat constructor.
Defined.

End EntryPoint.
